(** * Black-Scholes call pricer: a shallow embedding of
      [src/components/default.js] and [src/components/reverse.js]

    The two components carry their own copy of [normCDF] and
    [blackScholesCall]; [reverse.js] also has the sensitivity sweep
    [generateSensitivityData], [default.js] the [chartData] of its chart.

    ** Number models

    A JavaScript number is modelled by [jsnum]: a real number, one of the
    two infinities, or NaN.  The special values follow IEEE-754 /
    ECMAScript ([Infinity - Infinity = NaN], [x / 0 = +-Infinity],
    [Math.log] of a negative number is NaN, every comparison with NaN is
    false, ...).  On finite values the arithmetic is the exact arithmetic
    of the reals: binary64 rounding, overflow and underflow are not
    modelled, and there is a single zero, which behaves as [+0].
    [Math.exp], [Math.log] and [Math.sqrt] are the real functions [exp],
    [ln] and [sqrt] on their domains.

    What is stated over [jsnum] is of three kinds: the formulas and the
    shape of the results; the guard and the propagation of NaN and of the
    infinities, which do not depend on rounding; and comparisons of
    computed values (orderings, bounds, finiteness), which are stated
    where the binary64 code satisfies them too: most of them on bounded
    inputs, the ranges of the sliders, with a tolerance wherever rounding
    could decide, and without the cases that rest on the sign of a zero.

    The module [B64] embeds the two copies of the pricer a second time,
    over the binary64 numbers themselves; it is used where the two copies
    are compared with each other, which the exact arithmetic cannot do. *)

From Stdlib Require Import Floats.
From Stdlib Require Import Reals Lra Lia List Bool String.
Import ListNotations.

Open Scope R_scope.
Set Warnings "-inexact-float".

(** ** JavaScript numbers *)

Inductive jsnum : Type :=
| Fin (x : R)
| PInf
| NInf
| NaN.

Coercion Fin : R >-> jsnum.

Definition R_leb (a b : R) : bool := if Rle_dec a b then true else false.
Definition R_ltb (a b : R) : bool := if Rlt_dec a b then true else false.
Definition R_eqb (a b : R) : bool := if Req_dec_T a b then true else false.

(** [signed_inf pos x]: the infinity whose sign is the sign of [x], flipped
    when [pos] is false; NaN when [x] is zero ([0 * Infinity], [0 / 0]). *)
Definition signed_inf (pos : bool) (x : R) : jsnum :=
  if R_ltb 0 x then (if pos then PInf else NInf)
  else if R_ltb x 0 then (if pos then NInf else PInf)
  else NaN.

Definition jneg (a : jsnum) : jsnum :=
  match a with
  | Fin x => Fin (- x)
  | PInf => NInf
  | NInf => PInf
  | NaN => NaN
  end.

Definition jadd (a b : jsnum) : jsnum :=
  match a, b with
  | NaN, _ | _, NaN => NaN
  | Fin x, Fin y => Fin (x + y)
  | PInf, NInf | NInf, PInf => NaN
  | PInf, _ | _, PInf => PInf
  | NInf, _ | _, NInf => NInf
  end.

Definition jsub (a b : jsnum) : jsnum := jadd a (jneg b).

Definition jmul (a b : jsnum) : jsnum :=
  match a, b with
  | NaN, _ | _, NaN => NaN
  | Fin x, Fin y => Fin (x * y)
  | Fin x, PInf | PInf, Fin x => signed_inf true x
  | Fin x, NInf | NInf, Fin x => signed_inf false x
  | PInf, PInf | NInf, NInf => PInf
  | PInf, NInf | NInf, PInf => NInf
  end.

Definition jdiv (a b : jsnum) : jsnum :=
  match a, b with
  | NaN, _ | _, NaN => NaN
  | Fin x, Fin y => if R_eqb y 0 then signed_inf true x else Fin (x / y)
  | Fin _, (PInf | NInf) => Fin 0
  | PInf, Fin y => if R_ltb y 0 then NInf else PInf
  | NInf, Fin y => if R_ltb y 0 then PInf else NInf
  | (PInf | NInf), (PInf | NInf) => NaN
  end.

(** [a <= b] and [a > b] of JavaScript: false as soon as one side is NaN. *)
Definition jle (a b : jsnum) : bool :=
  match a, b with
  | NaN, _ | _, NaN => false
  | Fin x, Fin y => R_leb x y
  | NInf, _ | _, PInf => true
  | PInf, _ | _, NInf => false
  end.

Definition jgt (a b : jsnum) : bool :=
  match a, b with
  | NaN, _ | _, NaN => false
  | Fin x, Fin y => R_ltb y x
  | PInf, PInf | NInf, NInf => false
  | PInf, _ | _, NInf => true
  | NInf, _ | _, PInf => false
  end.

(** The [Math] functions the pricer calls. *)
Definition Math_abs (a : jsnum) : jsnum :=
  match a with
  | Fin x => Fin (Rabs x)
  | PInf | NInf => PInf
  | NaN => NaN
  end.

Definition Math_exp (a : jsnum) : jsnum :=
  match a with
  | Fin x => Fin (exp x)
  | PInf => PInf
  | NInf => Fin 0
  | NaN => NaN
  end.

Definition Math_log (a : jsnum) : jsnum :=
  match a with
  | Fin x => if R_ltb x 0 then NaN else if R_eqb x 0 then NInf else Fin (ln x)
  | PInf => PInf
  | NInf | NaN => NaN
  end.

Definition Math_sqrt (a : jsnum) : jsnum :=
  match a with
  | Fin x => if R_ltb x 0 then NaN else Fin (sqrt x)
  | PInf => PInf
  | NInf | NaN => NaN
  end.

Definition is_nan (a : jsnum) : bool :=
  match a with NaN => true | _ => false end.

Definition is_finite (a : jsnum) : bool :=
  match a with Fin _ => true | _ => false end.

Declare Scope js_scope.
Delimit Scope js_scope with js.
Bind Scope js_scope with jsnum.
Notation "- x" := (jneg x) : js_scope.
Infix "+" := jadd : js_scope.
Infix "-" := jsub : js_scope.
Infix "*" := jmul : js_scope.
Infix "/" := jdiv : js_scope.
Infix "<=?" := jle (at level 70, no associativity) : js_scope.
Infix ">?" := jgt (at level 70, no associativity) : js_scope.

(** ** Values returned by the pricer *)

(** The object literal returned by the main path of [blackScholesCall]. *)
Record PricingResult : Type := mkResult {
  premium : jsnum;
  d1 : jsnum;
  d2 : jsnum;
  Nd1 : jsnum;
  Nd2 : jsnum;
  discountFactor : jsnum
}.

(** [blackScholesCall] returns either a bare number ([return 0]) or the
    object literal. *)
Inductive jsvalue : Type :=
| JNum (n : jsnum)
| JObj (o : PricingResult).

(** Property reads [v.premium], [v.d1], ...: a number has no such own
    property, the read gives [undefined] ([None]). *)
Definition get_prop (f : PricingResult -> jsnum) (v : jsvalue) : option jsnum :=
  match v with
  | JNum _ => None
  | JObj o => Some (f o)
  end.

(** ** [src/components/default.js] *)

Module Default.

Definition normCDF (x : jsnum) : jsnum :=
  (let t := 1 / (1 + 0.2316419 * Math_abs x) in
   let d := 0.3989423 * Math_exp (((- x) * x) / 2) in
   let prob := d * t * (0.3193815 + t * (-0.3565638 + t * (1.781478 + t * (-1.821256 + t * 1.330274)))) in
   let prob := if x >? 0 then 1 - prob else prob in
   prob)%js.

Definition blackScholesCall (S K T r sigma : jsnum) : jsvalue :=
  (if (T <=? 0) || (sigma <=? 0) then JNum 0
   else
     let d1 := (Math_log (S / K) + (r + 0.5 * sigma * sigma) * T) / (sigma * Math_sqrt T) in
     let d2 := d1 - sigma * Math_sqrt T in
     let callPrice := S * normCDF d1 - K * Math_exp ((- r) * T) * normCDF d2 in
     JObj {| premium := callPrice;
             d1 := d1;
             d2 := d2;
             Nd1 := normCDF d1;
             Nd2 := normCDF d2;
             discountFactor := Math_exp ((- r) * T) |})%js.

End Default.

(** ** [src/components/reverse.js] *)

Module Reverse.

Definition normCDF (x : jsnum) : jsnum :=
  (let t := 1 / (1 + 0.2316419 * Math_abs x) in
   let d := 0.3989423 * Math_exp (((- x) * x) / 2) in
   let p := d * t * (0.3193815 + t * (-0.3565638 + t * (1.781478 + t * (-1.821256 + t * 1.330274)))) in
   if x >? 0 then 1 - p else p)%js.

Definition blackScholesCall (S K T r sigma : jsnum) : jsvalue :=
  (if (T <=? 0) || (sigma <=? 0) then JNum 0
   else
     let d1 := (Math_log (S / K) + (r + (sigma * sigma) / 2) * T) / (sigma * Math_sqrt T) in
     let d2 := d1 - sigma * Math_sqrt T in
     let callPrice := S * normCDF d1 - K * Math_exp ((- r) * T) * normCDF d2 in
     JObj {| premium := callPrice;
             d1 := d1;
             d2 := d2;
             Nd1 := normCDF d1;
             Nd2 := normCDF d2;
             discountFactor := Math_exp ((- r) * T) |})%js.

(** *** The sensitivity sweep of [BlackScholesCalculator] *)

(** The [inputs] state object. *)
Record Inputs : Type := mkInputs {
  in_S : jsnum;
  in_K : jsnum;
  in_T : jsnum;
  in_r : jsnum;
  in_sigma : jsnum
}.

(** The values of [sensitivityType] (the options of the [select]). *)
Inductive Field : Type := F_S | F_K | F_T | F_r | F_sigma.

Record Range : Type := mkRange {
  rng_min : jsnum;
  rng_max : jsnum;
  rng_label : string
}.

(** One element pushed on [data]: [{ x, premium, label }]; [premium] is
    the property read [res.premium], [undefined] ([None]) when [res] is a
    bare number. *)
Record Point : Type := mkPoint {
  pt_x : jsnum;
  pt_premium : option jsnum;
  pt_label : string
}.

(** The table [ranges], read at [sensitivityType]. *)
Definition ranges (inputs : Inputs) (sensitivityType : Field) : Range :=
  match sensitivityType with
  | F_S => {| rng_min := (in_S inputs * 0.7)%js;
              rng_max := (in_S inputs * 1.3)%js;
              rng_label := "Stock Price (₹)" |}
  | F_K => {| rng_min := (in_K inputs * 0.7)%js;
              rng_max := (in_K inputs * 1.3)%js;
              rng_label := "Strike Price (₹)" |}
  | F_T => {| rng_min := 0.1; rng_max := 2;
              rng_label := "Time to Expiry (years)" |}
  | F_r => {| rng_min := 0.01; rng_max := 0.15;
              rng_label := "Risk-free Rate" |}
  | F_sigma => {| rng_min := 0.05; rng_max := 0.6;
                  rng_label := "Volatility" |}
  end.

(** [{ ...inputs, [sensitivityType]: value }] *)
Definition set_field (inputs : Inputs) (sensitivityType : Field) (value : jsnum) : Inputs :=
  match sensitivityType with
  | F_S => {| in_S := value; in_K := in_K inputs; in_T := in_T inputs;
              in_r := in_r inputs; in_sigma := in_sigma inputs |}
  | F_K => {| in_S := in_S inputs; in_K := value; in_T := in_T inputs;
              in_r := in_r inputs; in_sigma := in_sigma inputs |}
  | F_T => {| in_S := in_S inputs; in_K := in_K inputs; in_T := value;
              in_r := in_r inputs; in_sigma := in_sigma inputs |}
  | F_r => {| in_S := in_S inputs; in_K := in_K inputs; in_T := in_T inputs;
              in_r := value; in_sigma := in_sigma inputs |}
  | F_sigma => {| in_S := in_S inputs; in_K := in_K inputs; in_T := in_T inputs;
                  in_r := in_r inputs; in_sigma := value |}
  end.

Definition get_field (inputs : Inputs) (f : Field) : jsnum :=
  match f with
  | F_S => in_S inputs
  | F_K => in_K inputs
  | F_T => in_T inputs
  | F_r => in_r inputs
  | F_sigma => in_sigma inputs
  end.

(** The body of the [for] loop at counter [i]: the element it pushes. *)
Definition sweep_point (inputs : Inputs) (sensitivityType : Field)
    (range : Range) (stepSize : jsnum) (i : nat) : Point :=
  let value := (rng_min range + INR i * stepSize)%js in
  let testInputs := set_field inputs sensitivityType value in
  let res := blackScholesCall (in_S testInputs) (in_K testInputs)
               (in_T testInputs) (in_r testInputs) (in_sigma testInputs) in
  {| pt_x := value;
     pt_premium := get_prop premium res;
     pt_label := rng_label range |}.

(** [for (let i = ...; i <= steps; i++) { ...; data.push(...) }], started
    at counter [i] with the array [data]; [fuel] bounds the number of
    iterations. *)
Fixpoint sweep_loop (fuel : nat) (inputs : Inputs) (sensitivityType : Field)
    (range : Range) (stepSize : jsnum) (steps i : nat) (data : list Point) : list Point :=
  match fuel with
  | O => data
  | Datatypes.S fuel' =>
      if (i <=? steps)%nat
      then sweep_loop fuel' inputs sensitivityType range stepSize steps (i + 1)
             (data ++ [sweep_point inputs sensitivityType range stepSize i])
      else data
  end.

(** The sweep over [range] in [steps] steps: [stepSize], the empty
    [data], the loop from [i = 0]. *)
Definition sweep (inputs : Inputs) (sensitivityType : Field)
    (range : Range) (steps : nat) : list Point :=
  let stepSize := ((rng_max range - rng_min range) / INR steps)%js in
  sweep_loop (steps + 1) inputs sensitivityType range stepSize steps 0 [].

(** [generateSensitivityData]: the array handed to [setSensitivityData]. *)
Definition generateSensitivityData (inputs : Inputs) (sensitivityType : Field) : list Point :=
  let range := ranges inputs sensitivityType in
  let steps := 50%nat in
  sweep inputs sensitivityType range steps.

End Reverse.

(** ** The approximation on finite arguments

    On a finite argument [normCDF] stays within the reals; these are the
    real functions it computes there. *)

(** [t] of [normCDF]. *)
Definition cdf_t (x : R) : R := 1 / (1 + 0.2316419 * Rabs x).

(** The polynomial factor of [prob], in the Horner form of the source. *)
Definition cdf_poly (t : R) : R :=
  0.3193815 + t * (-0.3565638 + t * (1.781478 + t * (-1.821256 + t * 1.330274))).

(** [t * poly], and its derivative. *)
Definition cdf_q (t : R) : R := t * cdf_poly t.

Definition cdf_q' (t : R) : R :=
  0.3193815 + t * (2 * -0.3565638 + t * (3 * 1.781478 + t * (4 * -1.821256 + t * (5 * 1.330274)))).

(** [prob] of [normCDF] before the branch on the sign of [x]. *)
Definition cdf_tail (x : R) : R :=
  0.3989423 * exp ((- x) * x / 2) * cdf_t x * cdf_poly (cdf_t x).

Definition normCDF_R (x : R) : R :=
  if Rlt_dec 0 x then 1 - cdf_tail x else cdf_tail x.

(** The record of the normal path, with the formulas of the
    specification: [0.5 * sigma^2] is half the square of [sigma]. *)
Definition normal_record (N : jsnum -> jsnum) (S K T r sigma : jsnum) : PricingResult :=
  (let d1 := (Math_log (S / K) + (r + 0.5 * (sigma * sigma)) * T) / (sigma * Math_sqrt T) in
   let d2 := d1 - sigma * Math_sqrt T in
   let Nd1 := N d1 in
   let Nd2 := N d2 in
   let discountFactor := Math_exp ((- r) * T) in
   {| premium := S * Nd1 - K * discountFactor * Nd2;
      d1 := d1; d2 := d2; Nd1 := Nd1; Nd2 := Nd2;
      discountFactor := discountFactor |})%js.

(** On finite positive [S], [K], [T], [sigma] and finite [r] every field
    of the object is finite; these are the real values of [d1], [d2] and
    [premium]. *)
Definition d1_R (S K T r sigma : R) : R :=
  (ln (S / K) + (r + 0.5 * (sigma * sigma)) * T) / (sigma * sqrt T).

Definition d2_R (S K T r sigma : R) : R :=
  d1_R S K T r sigma - sigma * sqrt T.

Definition premium_R (S K T r sigma : R) : R :=
  S * normCDF_R (d1_R S K T r sigma)
  - K * exp ((- r) * T) * normCDF_R (d2_R S K T r sigma).

(** Orderings of a sequence of sampled values, with the comparisons of
    JavaScript. *)
Definition ascending (l : list jsnum) : Prop :=
  forall i j : nat, (i <= j < List.length l)%nat ->
    jle (nth i l NaN) (nth j l NaN) = true.

Definition strictly_increasing (l : list jsnum) : Prop :=
  forall i j : nat, (i < j < List.length l)%nat ->
    jgt (nth j l NaN) (nth i l NaN) = true.

Definition Field_eqb (f g : Reverse.Field) : bool :=
  match f, g with
  | Reverse.F_S, Reverse.F_S
  | Reverse.F_K, Reverse.F_K
  | Reverse.F_T, Reverse.F_T
  | Reverse.F_r, Reverse.F_r
  | Reverse.F_sigma, Reverse.F_sigma => true
  | _, _ => false
  end.

(** ** The rest of the two components

    What the components compute around the pricer: the chart data of
    [DefaultPage] (default.js), and the input handler, the [!result] test
    and the moneyness label of [BlackScholesCalculator] (reverse.js).  The
    JSX itself is not modelled. *)

(** *** More built-ins *)

(** [Math.max(a, b)]: NaN as soon as one argument is NaN. *)
Definition Math_max (a b : jsnum) : jsnum :=
  match a, b with
  | NaN, _ | _, NaN => NaN
  | Fin x, Fin y => Fin (Rmax x y)
  | PInf, _ | _, PInf => PInf
  | NInf, c | c, NInf => c
  end.

(** [Math.round(a)]: the nearest integer, a tie going up: the floor of
    [a + 0.5]. *)
Definition Math_round (a : jsnum) : jsnum :=
  match a with
  | Fin x => Fin (IZR (Int_part (x + 0.5)))
  | _ => a
  end.

(** [Number(a.toFixed(f))] on a number [a].  [toFixed] writes the sign,
    then the integer [n] nearest to [|a| * 10^f] (the larger one on a tie)
    with the point [f] digits from the right; from [10^21] on it writes
    the number as [String] does, and the non-finite values by name.
    [Number] reads the text back. *)
Definition Number_toFixed (f : nat) (a : jsnum) : jsnum :=
  match a with
  | Fin x =>
      if R_leb (10 ^ 21) (Rabs x) then Fin x
      else if R_ltb x 0
           then Fin (- (IZR (Int_part ((- x) * 10 ^ f + 0.5)) / 10 ^ f))
           else Fin (IZR (Int_part (x * 10 ^ f + 0.5)) / 10 ^ f)
  | _ => a
  end.

(** [a || b] on numbers: [a] unless it is falsy (0 or NaN). *)
Definition js_or (a b : jsnum) : jsnum :=
  match a with
  | NaN => b
  | Fin x => if R_eqb x 0 then b else a
  | _ => a
  end.

(** What evaluating a piece of code ends in: a value, or the [TypeError]
    of a method call on [undefined]. *)
Inductive outcome (A : Type) : Type :=
| Returns (a : A)
| Throws_TypeError.

Arguments Returns {A} a.
Arguments Throws_TypeError {A}.

(** *** [DefaultPage] of default.js *)

Module DefaultPage.

(** The [inputs] state: the same five fields as in reverse.js. *)
Definition Inputs : Type := Reverse.Inputs.

(** [update(field, value)]: [setInputs((s) => ({ ...s, [field]: value }))]. *)
Definition update (field : Reverse.Field) (value : jsnum) (s : Inputs) : Inputs :=
  Reverse.set_field s field value.

(** One element of [chartData]: [{ spot, premium }]. *)
Record ChartPoint : Type := mkChartPoint {
  cp_spot : jsnum;
  cp_premium : jsnum
}.

(** The body of the loop of [chartData] at counter [i].
    [p.premium.toFixed(2)] throws when [p.premium] is [undefined]. *)
Definition chart_point (inputs : Inputs) (min step : jsnum) (i : nat) : outcome ChartPoint :=
  let spot := (min + INR i * step)%js in
  let p := Default.blackScholesCall spot (Reverse.in_K inputs) (Reverse.in_T inputs)
             (Reverse.in_r inputs) (Reverse.in_sigma inputs) in
  match get_prop premium p with
  | None => Throws_TypeError
  | Some v => Returns {| cp_spot := Math_round spot; cp_premium := Number_toFixed 2 v |}
  end.

(** [for (let i = ...; i < points; i++) { ...; data.push(...) }]. *)
Fixpoint chart_loop (fuel : nat) (inputs : Inputs) (min step : jsnum)
    (points i : nat) (data : list ChartPoint) : outcome (list ChartPoint) :=
  match fuel with
  | O => Returns data
  | Datatypes.S fuel' =>
      if (i <? points)%nat
      then match chart_point inputs min step i with
           | Throws_TypeError => Throws_TypeError
           | Returns pt => chart_loop fuel' inputs min step points (i + 1) (data ++ [pt])
           end
      else Returns data
  end.

(** The callback of the [useMemo] of [chartData]. *)
Definition chartData (inputs : Inputs) : outcome (list ChartPoint) :=
  let points := 60%nat in
  let min := Math_max 0.1 (Reverse.in_S inputs * 0.5)%js in
  let max := (Reverse.in_S inputs * 1.5)%js in
  let step := ((max - min) / INR (points - 1))%js in
  chart_loop points inputs min step points 0 [].

End DefaultPage.

(** *** [BlackScholesCalculator] of reverse.js *)

Module Calculator.

(** The initial [inputs] state. *)
Definition initial_inputs : Reverse.Inputs :=
  {| Reverse.in_S := 2500; Reverse.in_K := 2500; Reverse.in_T := 1;
     Reverse.in_r := 0.07; Reverse.in_sigma := 0.25 |}.

(** [handleInputChange(key, value)]:
    [setInputs((prev) => ({ ...prev, [key]: parseFloat(value) || 0 }))].
    [parseFloat], which reads a number off the text of the event, is a
    parameter. *)
Definition handleInputChange (parseFloat : string -> jsnum)
    (key : Reverse.Field) (value : string) (prev : Reverse.Inputs) : Reverse.Inputs :=
  Reverse.set_field prev key (js_or (parseFloat value) 0).

(** A sequence of input events, oldest first. *)
Definition handle_all (parseFloat : string -> jsnum)
    (events : list (Reverse.Field * string)) (st : Reverse.Inputs) : Reverse.Inputs :=
  fold_left (fun s ev => handleInputChange parseFloat (fst ev) (snd ev) s) events st.

(** The [result] state: [null] ([None]) at first, then what the effect
    stores with [setResult(res)]. *)
Definition effect_result (inputs : Reverse.Inputs) : option jsvalue :=
  Some (Reverse.blackScholesCall (Reverse.in_S inputs) (Reverse.in_K inputs)
          (Reverse.in_T inputs) (Reverse.in_r inputs) (Reverse.in_sigma inputs)).

(** [!result]: [null], 0 and NaN are falsy, an object is truthy. *)
Definition not_result (result : option jsvalue) : bool :=
  match result with
  | None => true
  | Some (JNum NaN) => true
  | Some (JNum (Fin x)) => R_eqb x 0
  | Some (JNum _) => false
  | Some (JObj _) => false
  end.

(** What the component renders: [if (!result) return <div>Loading...</div>],
    the panels otherwise. *)
Inductive View : Type := Loading | Panels.

Definition render (result : option jsvalue) : View :=
  if not_result result then Loading else Panels.

(** The moneyness label:
    [inputs.S > inputs.K ? ITM : inputs.S < inputs.K ? OTM : ATM]. *)
Inductive Moneyness : Type := ITM | OTM | ATM.

Definition moneyness (inputs : Reverse.Inputs) : Moneyness :=
  if jgt (Reverse.in_S inputs) (Reverse.in_K inputs) then ITM
  else if jgt (Reverse.in_K inputs) (Reverse.in_S inputs) then OTM
  else ATM.

End Calculator.

(** No field of the inputs is NaN. *)
Definition nan_free (inputs : Reverse.Inputs) : Prop :=
  forall f : Reverse.Field, is_nan (Reverse.get_field inputs f) = false.

Definition strictly_decreasing (l : list jsnum) : Prop :=
  forall i j : nat, (i < j < List.length l)%nat ->
    jgt (nth i l NaN) (nth j l NaN) = true.

(** ** The ranges of the sliders

    The comparisons below (orderings, bounds, finiteness) are stated on
    inputs within the ranges of the sliders of the two components: prices
    from 1 to 5000, [T] from 0.01 to 5, [r] from 0 to 0.2 and [sigma] from
    0.01 to 1.  There nothing overflows or underflows in the binary64
    code, so that these statements do not rest on the exact arithmetic of
    [jsnum]. *)

Definition slider_price (S : R) : Prop := 1 <= S <= 5000.

Definition slider_params (T r sigma : R) : Prop :=
  0.01 <= T <= 5 /\ 0 <= r <= 0.2 /\ 0.01 <= sigma <= 1.

(** A property of the pricer that holds of the copy of default.js and of
    the copy of reverse.js. *)
Definition both_copies
    (P : (jsnum -> jsnum -> jsnum -> jsnum -> jsnum -> jsvalue) -> Prop) : Prop :=
  P Default.blackScholesCall /\ P Reverse.blackScholesCall.

(** The base value of a sweep of [S] or of [K] is within the range of the
    sliders; the sweeps of [T], [r] and [sigma] have fixed ranges. *)
Definition sweep_base (inputs : Reverse.Inputs) (sensitivityType : Reverse.Field) : Prop :=
  match sensitivityType with
  | Reverse.F_S => exists s : R, Reverse.in_S inputs = Fin s /\ slider_price s
  | Reverse.F_K => exists k : R, Reverse.in_K inputs = Fin k /\ slider_price k
  | _ => True
  end.

(** ** The premium as a function of [d2]

    With [w = sigma * sqrt T] and [x = d2], [d1] is [x + w] and
    [S / (K * discountFactor)] is [exp (w * x + w * w / 2)]: the premium
    is [K * discountFactor * bs_F w x]. *)
Definition bs_F (w x : R) : R :=
  exp (w * x + w * w / 2) * normCDF_R (x + w) - normCDF_R x.

(** [t] and [prob] of [normCDF] as functions of [u = |x|]. *)
Definition cdf_ts (u : R) : R := 1 / (1 + 0.2316419 * u).

Definition cdf_g (u : R) : R :=
  0.3989423 * exp ((- u) * u / 2) * cdf_q (cdf_ts u).

(** The derivative of [cdf_g] is [- (0.3989423 / 0.2316419) * exp (- u * u / 2)]
    times the polynomial [cdf_Hp] at [t]. *)
Definition cdf_Hp (t : R) : R :=
  (1 - t) * cdf_poly t + 0.2316419 * 0.2316419 * (t * t) * cdf_q' t.

Definition cdf_Hp' (t : R) : R :=
  - cdf_poly t
  + (1 - t) * (-0.3565638 + t * (2 * 1.781478 + t * (3 * -1.821256 + t * (4 * 1.330274))))
  + 0.2316419 * 0.2316419
    * (2 * t * cdf_q' t
       + t * t * (2 * -0.3565638 + t * (6 * 1.781478 + t * (12 * -1.821256 + t * (20 * 1.330274))))).

Definition cdf_g' (u : R) : R :=
  - (0.3989423 / 0.2316419) * exp ((- u) * u / 2) * cdf_Hp (cdf_ts u).

(** [bs_F] on [0 <= x], on [- w <= x <= 0] and on [x <= - w], where both
    [normCDF] are on one side of their branch, and the derivatives there. *)
Definition bs_F_pos (w x : R) : R :=
  exp (w * x + w * w / 2) * (1 - cdf_g (x + w)) - (1 - cdf_g x).

Definition bs_F_mid (w x : R) : R :=
  exp (w * x + w * w / 2) * (1 - cdf_g (x + w)) - cdf_g (- x).

Definition bs_F_neg (w x : R) : R :=
  exp (w * x + w * w / 2) * cdf_g (- (x + w)) - cdf_g (- x).

Definition bs_F_pos' (w x : R) : R :=
  w * exp (w * x + w * w / 2) * (1 - cdf_g (x + w))
  - exp (w * x + w * w / 2) * cdf_g' (x + w) + cdf_g' x.

Definition bs_F_mid' (w x : R) : R :=
  w * exp (w * x + w * w / 2) * (1 - cdf_g (x + w))
  - exp (w * x + w * w / 2) * cdf_g' (x + w) + cdf_g' (- x).

Definition bs_F_neg' (w x : R) : R :=
  w * exp (w * x + w * w / 2) * cdf_g (- (x + w))
  - exp (w * x + w * w / 2) * cdf_g' (- (x + w)) + cdf_g' (- x).

(** The jump of [normCDF] at 0: from [prob] to [1 - prob]. *)
Definition cdf_jump : R := 1 - 2 * (0.3989423 * 1.2533137).

(** ** The pricer in binary64

    The two copies of [normCDF] and [blackScholesCall] once more, operator
    for operator, over the binary64 numbers: [+], [-], [*], [/],
    [Math.abs] and the comparisons are the IEEE-754 operations.
    ECMAScript leaves the precision of [Math.exp], [Math.log] and
    [Math.sqrt] to the implementation: they are parameters here. *)

Module B64.

Record PricingResult : Type := mkResult {
  premium : float;
  d1 : float;
  d2 : float;
  Nd1 : float;
  Nd2 : float;
  discountFactor : float
}.

Inductive jsvalue : Type :=
| JNum (n : float)
| JObj (o : PricingResult).

(** [src/components/default.js] *)
Module Default.

Section Math.

Variables Math_exp Math_log Math_sqrt : float -> float.

Definition normCDF (x : float) : float :=
  (let t := 1 / (1 + 0.2316419 * abs x) in
   let d := 0.3989423 * Math_exp ((- x * x) / 2) in
   let prob := d * t * (0.3193815 + t * (-0.3565638 + t * (1.781478 + t * (-1.821256 + t * 1.330274)))) in
   let prob := if 0 <? x then 1 - prob else prob in
   prob)%float.

Definition blackScholesCall (S K T r sigma : float) : jsvalue :=
  (if (T <=? 0) || (sigma <=? 0) then JNum 0
   else
     let d1 := (Math_log (S / K) + (r + 0.5 * sigma * sigma) * T) / (sigma * Math_sqrt T) in
     let d2 := d1 - sigma * Math_sqrt T in
     let callPrice := S * normCDF d1 - K * Math_exp (- r * T) * normCDF d2 in
     JObj {| premium := callPrice;
             d1 := d1;
             d2 := d2;
             Nd1 := normCDF d1;
             Nd2 := normCDF d2;
             discountFactor := Math_exp (- r * T) |})%float.

End Math.

End Default.

(** [src/components/reverse.js] *)
Module Reverse.

Section Math.

Variables Math_exp Math_log Math_sqrt : float -> float.

Definition normCDF (x : float) : float :=
  (let t := 1 / (1 + 0.2316419 * abs x) in
   let d := 0.3989423 * Math_exp ((- x * x) / 2) in
   let p := d * t * (0.3193815 + t * (-0.3565638 + t * (1.781478 + t * (-1.821256 + t * 1.330274)))) in
   if 0 <? x then 1 - p else p)%float.

Definition blackScholesCall (S K T r sigma : float) : jsvalue :=
  (if (T <=? 0) || (sigma <=? 0) then JNum 0
   else
     let d1 := (Math_log (S / K) + (r + (sigma * sigma) / 2) * T) / (sigma * Math_sqrt T) in
     let d2 := d1 - sigma * Math_sqrt T in
     let callPrice := S * normCDF d1 - K * Math_exp (- r * T) * normCDF d2 in
     JObj {| premium := callPrice;
             d1 := d1;
             d2 := d2;
             Nd1 := normCDF d1;
             Nd2 := normCDF d2;
             discountFactor := Math_exp (- r * T) |})%float.

End Math.

End Reverse.



End B64.

(** * Properties *)

(** ** Tests on reals *)

Lemma R_ltb_true (a b : R) : a < b -> R_ltb a b = true.
Proof. intros H. unfold R_ltb. destruct (Rlt_dec a b); [reflexivity | contradiction]. Qed.

Lemma R_ltb_false (a b : R) : b <= a -> R_ltb a b = false.
Proof. intros H. unfold R_ltb. destruct (Rlt_dec a b); [lra | reflexivity]. Qed.

Lemma R_leb_true (a b : R) : a <= b -> R_leb a b = true.
Proof. intros H. unfold R_leb. destruct (Rle_dec a b); [reflexivity | contradiction]. Qed.

Lemma R_leb_false (a b : R) : b < a -> R_leb a b = false.
Proof. intros H. unfold R_leb. destruct (Rle_dec a b); [lra | reflexivity]. Qed.

Lemma R_eqb_true (a b : R) : a = b -> R_eqb a b = true.
Proof. intros H. unfold R_eqb. destruct (Req_dec_T a b); [reflexivity | contradiction]. Qed.

Lemma R_eqb_false (a b : R) : a <> b -> R_eqb a b = false.
Proof. intros H. unfold R_eqb. destruct (Req_dec_T a b); [contradiction | reflexivity]. Qed.

(** ** The real approximation: sign, bounds, monotonicity *)

Lemma cdf_t_den_pos (x : R) : 0 < 1 + 0.2316419 * Rabs x.
Proof. pose proof (Rabs_pos x). lra. Qed.

Lemma cdf_t_range (x : R) : 0 < cdf_t x <= 1.
Proof.
  unfold cdf_t. pose proof (cdf_t_den_pos x) as Hd. pose proof (Rabs_pos x) as Ha.
  split.
  - apply Rdiv_lt_0_compat; lra.
  - unfold Rdiv. rewrite Rmult_1_l, <- Rinv_1.
    apply Rinv_le_contravar; lra.
Qed.

Lemma cdf_t_antitone (x y : R) : Rabs x <= Rabs y -> cdf_t y <= cdf_t x.
Proof.
  intros H. unfold cdf_t, Rdiv. rewrite !Rmult_1_l.
  apply Rinv_le_contravar; [apply cdf_t_den_pos | lra].
Qed.

Lemma cdf_poly_pos (t : R) : 0 < cdf_poly t.
Proof.
  unfold cdf_poly.
  assert (0 < 0.3193815 + -0.3565638 * t + 0.5 * (t * t)) by nra.
  assert (0 < 1.281478 + -1.821256 * t + 1.330274 * (t * t)) by nra.
  assert (0 <= t * t) by nra.
  nra.
Qed.

Lemma cdf_q'_pos (t : R) : 0 < cdf_q' t.
Proof.
  unfold cdf_q'.
  assert (0 < 0.3193815 + 2 * -0.3565638 * t + 0.5 * 3 * (t * t)) by nra.
  assert (0 < 3 * 1.281478 + 4 * -1.821256 * t + 5 * 1.330274 * (t * t)) by nra.
  assert (0 <= t * t) by nra.
  nra.
Qed.

Lemma cdf_q_deriv (t : R) : derivable_pt_lim cdf_q t (cdf_q' t).
Proof.
  evar (l : R).
  assert (Hl : derivable_pt_lim
                 (id * (fct_cte 0.3193815 + id * (fct_cte (-0.3565638) + id * (fct_cte 1.781478
                    + id * (fct_cte (-1.821256) + id * fct_cte 1.330274)))))%F t l).
  { subst l.
    repeat first [ apply derivable_pt_lim_mult
                 | apply derivable_pt_lim_plus
                 | apply derivable_pt_lim_id
                 | apply derivable_pt_lim_const ]. }
  replace (cdf_q' t) with l; [exact Hl |].
  subst l. unfold cdf_q', plus_fct, mult_fct, fct_cte, id. ring.
Qed.

Lemma cdf_q_monotone (s t : R) : s <= t -> cdf_q s <= cdf_q t.
Proof.
  intros [Hlt | ->]; [| lra].
  destruct (MVT_cor2 cdf_q cdf_q' s t Hlt) as [c [Hc _]].
  - intros c _. apply cdf_q_deriv.
  - pose proof (cdf_q'_pos c). nra.
Qed.

Lemma cdf_tail_eq (x : R) :
  cdf_tail x = 0.3989423 * exp ((- x) * x / 2) * cdf_q (cdf_t x).
Proof. unfold cdf_tail, cdf_q. ring. Qed.

Lemma cdf_q_pos (t : R) : 0 < t -> 0 < cdf_q t.
Proof. intros Ht. unfold cdf_q. apply Rmult_lt_0_compat; [exact Ht | apply cdf_poly_pos]. Qed.

Lemma cdf_tail_pos (x : R) : 0 < cdf_tail x.
Proof.
  rewrite cdf_tail_eq.
  pose proof (exp_pos ((- x) * x / 2)) as He.
  pose proof (cdf_q_pos (cdf_t x) (proj1 (cdf_t_range x))) as Hq.
  apply Rmult_lt_0_compat; [apply Rmult_lt_0_compat; [lra | exact He] | exact Hq].
Qed.

Lemma gauss_antitone (x y : R) :
  Rabs x <= Rabs y -> exp ((- y) * y / 2) <= exp ((- x) * x / 2).
Proof.
  intros H.
  assert (Hx : x * x = Rabs x * Rabs x)
    by (unfold Rabs; destruct (Rcase_abs x); ring).
  assert (Hy : y * y = Rabs y * Rabs y)
    by (unfold Rabs; destruct (Rcase_abs y); ring).
  assert (Hsq : x * x <= y * y).
  { rewrite Hx, Hy. pose proof (Rabs_pos x). nra. }
  destruct (Req_dec (x * x) (y * y)) as [E | N].
  - right. f_equal. lra.
  - left. apply exp_increasing. lra.
Qed.

(** [prob] only depends on [|x|], and gets smaller as [|x|] grows. *)
Lemma cdf_tail_antitone (x y : R) :
  Rabs x <= Rabs y -> cdf_tail y <= cdf_tail x.
Proof.
  intros H. rewrite !cdf_tail_eq.
  pose proof (gauss_antitone x y H) as He.
  pose proof (cdf_q_monotone _ _ (cdf_t_antitone x y H)) as Hq.
  pose proof (exp_pos ((- y) * y / 2)) as Hy.
  pose proof (cdf_q_pos (cdf_t y) (proj1 (cdf_t_range y))) as Hqy.
  rewrite !Rmult_assoc. apply Rmult_le_compat_l; [lra |].
  apply Rmult_le_compat; lra.
Qed.

Lemma cdf_tail_0 : cdf_tail 0 = 0.3989423 * 1.2533137.
Proof.
  unfold cdf_tail, cdf_t, cdf_poly.
  rewrite Rabs_R0.
  replace (- 0 * 0 / 2) with 0 by lra.
  rewrite exp_0. lra.
Qed.

Lemma cdf_tail_lt_half (x : R) : cdf_tail x < 1 / 2.
Proof.
  assert (H : cdf_tail x <= cdf_tail 0).
  { apply cdf_tail_antitone. rewrite Rabs_R0. apply Rabs_pos. }
  rewrite cdf_tail_0 in H. lra.
Qed.

Lemma normCDF_R_pos (x : R) : 0 < x -> normCDF_R x = 1 - cdf_tail x.
Proof. intros H. unfold normCDF_R. destruct (Rlt_dec 0 x); [reflexivity | contradiction]. Qed.

Lemma normCDF_R_nonpos (x : R) : x <= 0 -> normCDF_R x = cdf_tail x.
Proof. intros H. unfold normCDF_R. destruct (Rlt_dec 0 x); [lra | reflexivity]. Qed.

Lemma normCDF_R_range (x : R) : 0 < normCDF_R x < 1.
Proof.
  pose proof (cdf_tail_pos x). pose proof (cdf_tail_lt_half x).
  unfold normCDF_R. destruct (Rlt_dec 0 x); lra.
Qed.

Lemma normCDF_R_monotone (x y : R) : x <= y -> normCDF_R x <= normCDF_R y.
Proof.
  intros Hxy.
  destruct (Rlt_dec 0 x) as [Hx | Hx].
  - (* 0 < x <= y *)
    rewrite !normCDF_R_pos by lra.
    assert (cdf_tail y <= cdf_tail x).
    { apply cdf_tail_antitone. rewrite !Rabs_pos_eq; lra. }
    lra.
  - destruct (Rlt_dec 0 y) as [Hy | Hy].
    + (* x <= 0 < y *)
      rewrite normCDF_R_nonpos, normCDF_R_pos by lra.
      pose proof (cdf_tail_lt_half x). pose proof (cdf_tail_lt_half y). lra.
    + (* x <= y <= 0 *)
      rewrite !normCDF_R_nonpos by lra.
      apply cdf_tail_antitone. rewrite !Rabs_left1 by lra. lra.
Qed.

(** ** [normCDF] on finite arguments *)

Lemma Default_normCDF_Fin (x : R) : Default.normCDF (Fin x) = Fin (normCDF_R x).
Proof.
  unfold Default.normCDF, normCDF_R, cdf_tail, cdf_t, cdf_poly.
  cbn [Math_abs Math_exp jneg jmul jadd jdiv jsub jgt].
  rewrite (R_eqb_false (1 + 0.2316419 * Rabs x) 0)
    by (pose proof (cdf_t_den_pos x); lra).
  rewrite (R_eqb_false 2 0) by lra.
  cbn [Math_abs Math_exp jneg jmul jadd jdiv jsub jgt].
  unfold R_ltb. destruct (Rlt_dec 0 x); f_equal; ring.
Qed.

Lemma Reverse_normCDF_Fin (x : R) : Reverse.normCDF (Fin x) = Fin (normCDF_R x).
Proof.
  unfold Reverse.normCDF, normCDF_R, cdf_tail, cdf_t, cdf_poly.
  cbn [Math_abs Math_exp jneg jmul jadd jdiv jsub jgt].
  rewrite (R_eqb_false (1 + 0.2316419 * Rabs x) 0)
    by (pose proof (cdf_t_den_pos x); lra).
  rewrite (R_eqb_false 2 0) by lra.
  cbn [Math_abs Math_exp jneg jmul jadd jdiv jsub jgt].
  unfold R_ltb. destruct (Rlt_dec 0 x); f_equal; ring.
Qed.

(** ** Comparisons and the special values *)

Lemma jgt_not_jle (a b : jsnum) : jgt a b = true -> jle a b = false.
Proof.
  destruct a as [x| | |], b as [y| | |]; cbn; try congruence.
  unfold R_ltb, R_leb. destruct (Rlt_dec y x), (Rle_dec x y); try congruence; lra.
Qed.

Lemma jgt_0_cases (a : jsnum) :
  jgt a 0 = true -> (exists x : R, a = Fin x /\ 0 < x) \/ a = PInf.
Proof.
  destruct a as [x| | |]; cbn; try congruence; [| now right].
  unfold R_ltb. destruct (Rlt_dec 0 x); [| congruence]. left. now exists x.
Qed.

Lemma guard_false (T sigma : jsnum) :
  jgt T 0 = true -> jgt sigma 0 = true -> jle T 0 || jle sigma 0 = false.
Proof. intros HT Hs. now rewrite (jgt_not_jle _ _ HT), (jgt_not_jle _ _ Hs). Qed.

(** [0.5 * sigma * sigma] of default.js and [(sigma * sigma) / 2] of
    reverse.js are both half the square of [sigma], on every value. *)
Lemma half_square_default (sigma : jsnum) :
  (0.5 * sigma * sigma = 0.5 * (sigma * sigma))%js.
Proof.
  destruct sigma as [s| | |]; cbn; try reflexivity.
  - f_equal. ring.
  - unfold signed_inf. rewrite (R_ltb_true 0 0.5) by lra. reflexivity.
  - unfold signed_inf. rewrite (R_ltb_true 0 0.5) by lra. reflexivity.
Qed.

Lemma half_square_reverse (sigma : jsnum) :
  (sigma * sigma / 2 = 0.5 * (sigma * sigma))%js.
Proof.
  destruct sigma as [s| | |]; cbn; try reflexivity.
  - rewrite (R_eqb_false 2 0) by lra. f_equal. lra.
  - unfold signed_inf. rewrite (R_ltb_false 2 0), (R_ltb_true 0 0.5) by lra. reflexivity.
  - unfold signed_inf. rewrite (R_ltb_false 2 0), (R_ltb_true 0 0.5) by lra. reflexivity.
Qed.

Lemma normCDF_copies_agree (x : jsnum) : Default.normCDF x = Reverse.normCDF x.
Proof. reflexivity. Qed.

Lemma blackScholesCall_copies_agree (S K T r sigma : jsnum) :
  Default.blackScholesCall S K T r sigma = Reverse.blackScholesCall S K T r sigma.
Proof.
  unfold Default.blackScholesCall, Reverse.blackScholesCall.
  destruct (jle T 0 || jle sigma 0); [reflexivity |].
  cbv zeta. rewrite half_square_default, half_square_reverse.
  rewrite !normCDF_copies_agree. reflexivity.
Qed.

Lemma Default_normal_path (S K T r sigma : jsnum) :
  jle T 0 || jle sigma 0 = false ->
  Default.blackScholesCall S K T r sigma
  = JObj (normal_record Default.normCDF S K T r sigma).
Proof.
  intros Hg. unfold Default.blackScholesCall, normal_record. rewrite Hg.
  cbv zeta. rewrite half_square_default. reflexivity.
Qed.

Lemma Reverse_normal_path (S K T r sigma : jsnum) :
  jle T 0 || jle sigma 0 = false ->
  Reverse.blackScholesCall S K T r sigma
  = JObj (normal_record Reverse.normCDF S K T r sigma).
Proof.
  intros Hg. rewrite <- blackScholesCall_copies_agree.
  rewrite (Default_normal_path _ _ _ _ _ Hg). reflexivity.
Qed.

(** C1. For every input with [T > 0] and [sigma > 0], [blackScholesCall]
    (either copy) returns the object whose six fields are
    [d1 = (ln(S/K) + (r + 0.5*sigma^2)*T) / (sigma*sqrt(T))],
    [d2 = d1 - sigma*sqrt(T)], [Nd1 = normCDF(d1)], [Nd2 = normCDF(d2)],
    [discountFactor = exp(-r*T)] and
    [premium = S*Nd1 - K*discountFactor*Nd2]. *)
Theorem C1_normal_path_fields (S K T r sigma : jsnum) :
  jgt T 0 = true -> jgt sigma 0 = true ->
  (let d1 := (Math_log (S / K) + (r + 0.5 * (sigma * sigma)) * T) / (sigma * Math_sqrt T) in
   let d2 := d1 - sigma * Math_sqrt T in
   Default.blackScholesCall S K T r sigma
   = JObj {| premium := S * Default.normCDF d1
                        - K * Math_exp ((- r) * T) * Default.normCDF d2;
             d1 := d1;
             d2 := d2;
             Nd1 := Default.normCDF d1;
             Nd2 := Default.normCDF d2;
             discountFactor := Math_exp ((- r) * T) |}
   /\
   Reverse.blackScholesCall S K T r sigma
   = JObj {| premium := S * Reverse.normCDF d1
                        - K * Math_exp ((- r) * T) * Reverse.normCDF d2;
             d1 := d1;
             d2 := d2;
             Nd1 := Reverse.normCDF d1;
             Nd2 := Reverse.normCDF d2;
             discountFactor := Math_exp ((- r) * T) |})%js.
Proof.
  intros HT Hs. pose proof (guard_false T sigma HT Hs) as Hg.
  cbv zeta. split.
  - rewrite (Default_normal_path _ _ _ _ _ Hg). reflexivity.
  - rewrite (Reverse_normal_path _ _ _ _ _ Hg). reflexivity.
Qed.

Lemma C1_witness :
  exists o : PricingResult,
    Default.blackScholesCall 2500 2400 1 0.05 0.2 = JObj o /\
    d2 o = (d1 o - 0.2 * Math_sqrt 1)%js.
Proof.
  assert (H1 : jgt (Fin 1) 0 = true) by (cbn; apply R_ltb_true; lra).
  assert (H2 : jgt (Fin 0.2) 0 = true) by (cbn; apply R_ltb_true; lra).
  destruct (C1_normal_path_fields 2500 2400 1 0.05 0.2 H1 H2) as [Hd _].
  eexists. split; [exact Hd | reflexivity].
Defined.

(** C2. For every input with [T <= 0] or [sigma <= 0] -- whatever [S],
    [K] and [r] are, a zero or NaN among them included --
    [blackScholesCall] returns before the logarithm, the square root and
    the division are evaluated: the value it returns is the number 0
    (not NaN, not an infinity). *)
Theorem C2_degenerate_zero (S K T r sigma : jsnum) :
  jle T 0 = true \/ jle sigma 0 = true ->
  Default.blackScholesCall S K T r sigma = JNum (Fin 0) /\
  Reverse.blackScholesCall S K T r sigma = JNum (Fin 0).
Proof.
  intros H.
  assert (Hg : jle T 0 || jle sigma 0 = true).
  { destruct H as [-> | ->]; [reflexivity | apply orb_true_r]. }
  unfold Default.blackScholesCall, Reverse.blackScholesCall. rewrite Hg.
  repeat split.
Qed.

Lemma C2_witness :
  Default.blackScholesCall 2500 2400 0 0.05 0.2 = JNum (Fin 0) /\
  Reverse.blackScholesCall 2500 0 1 NaN (-0.2) = JNum (Fin 0).
Proof.
  split.
  - apply (C2_degenerate_zero 2500 2400 0 0.05 0.2).
    left. cbn. apply R_leb_true. lra.
  - apply (C2_degenerate_zero 2500 0 1 NaN (-0.2)).
    right. cbn. apply R_leb_true. lra.
Defined.

(** C3. In the degenerate branch ([T <= 0] or [sigma <= 0])
    [blackScholesCall] returns the bare number 0, on which none of
    [premium], [d1], [d2], [Nd1], [Nd2], [discountFactor] can be read; in
    the normal branch it returns the object with the six fields.  The two
    branches return values of different shapes. *)
Theorem C3_two_shapes (S K T r sigma : jsnum) :
  (jle T 0 || jle sigma 0 = true ->
     Default.blackScholesCall S K T r sigma = JNum (Fin 0) /\
     Reverse.blackScholesCall S K T r sigma = JNum (Fin 0) /\
     forall f : PricingResult -> jsnum, get_prop f (JNum (Fin 0)) = None)
  /\
  (jle T 0 || jle sigma 0 = false ->
     exists o : PricingResult,
       Default.blackScholesCall S K T r sigma = JObj o /\
       Reverse.blackScholesCall S K T r sigma = JObj o /\
       (forall f : PricingResult -> jsnum, get_prop f (JObj o) = Some (f o)) /\
       JObj o <> JNum (Fin 0)).
Proof.
  split; intros Hg.
  - unfold Default.blackScholesCall, Reverse.blackScholesCall. rewrite Hg.
    repeat split.
  - exists (normal_record Default.normCDF S K T r sigma).
    rewrite (Default_normal_path _ _ _ _ _ Hg), (Reverse_normal_path _ _ _ _ _ Hg).
    repeat split. discriminate.
Qed.

Lemma C3_witness :
  get_prop premium (Default.blackScholesCall 2500 2400 0 0.05 0.2) = None /\
  exists o : PricingResult,
    Default.blackScholesCall 2500 2400 1 0.05 0.2 = JObj o /\
    get_prop premium (JObj o) = Some (premium o).
Proof.
  split.
  - destruct (proj1 (C3_two_shapes 2500 2400 0 0.05 0.2)) as [Hd [_ Hf]].
    + cbn. rewrite (R_leb_true 0 0) by lra. reflexivity.
    + rewrite Hd. apply Hf.
  - destruct (proj2 (C3_two_shapes 2500 2400 1 0.05 0.2)) as [o [Hd [_ [Hf _]]]].
    + cbn. rewrite (R_leb_false 1 0), (R_leb_false 0.2 0) by lra. reflexivity.
    + exists o. split; [exact Hd | apply Hf].
Defined.

(** C4. For every real [x], [normCDF] (either copy) computes
    [t = 1/(1 + 0.2316419*|x|)], [d = 0.3989423*exp(-x^2/2)] and
    [prob = d*t*(0.3193815 + t*(-0.3565638 + t*(1.781478 + t*(-1.821256
    + t*1.330274))))], and returns [1 - prob] when [x > 0] and [prob]
    otherwise. *)
Theorem C4_normCDF_formula (x : R) :
  let t := 1 / (1 + 0.2316419 * Rabs x) in
  let d := 0.3989423 * exp (- x ^ 2 / 2) in
  let prob := d * t * (0.3193815 + t * (-0.3565638 + t * (1.781478
                         + t * (-1.821256 + t * 1.330274)))) in
  Default.normCDF (Fin x) = Fin (if Rlt_dec 0 x then 1 - prob else prob) /\
  Reverse.normCDF (Fin x) = Fin (if Rlt_dec 0 x then 1 - prob else prob).
Proof.
  cbv zeta. rewrite Reverse_normCDF_Fin, Default_normCDF_Fin.
  assert (E : - x ^ 2 / 2 = (- x) * x / 2) by (simpl; field).
  rewrite E.
  unfold normCDF_R, cdf_tail, cdf_t, cdf_poly.
  split; destruct (Rlt_dec 0 x); reflexivity.
Qed.

(** ** The two copies in binary64 *)








(** C8. For every real [x] the value returned by [normCDF] (either copy)
    lies in [[0, 1]]; in exact arithmetic no tolerance is needed. *)
Theorem C8_normCDF_bounds (x : R) :
  exists y : R,
    Default.normCDF (Fin x) = Fin y /\
    Reverse.normCDF (Fin x) = Fin y /\
    0 <= y <= 1.
Proof.
  exists (normCDF_R x).
  rewrite Reverse_normCDF_Fin, Default_normCDF_Fin.
  pose proof (normCDF_R_range x). repeat split; lra.
Qed.

(** ** The normal path on finite inputs *)

Lemma jdiv_Fin (a b : R) : b <> 0 -> jdiv (Fin a) (Fin b) = Fin (a / b).
Proof. intros H. cbn. now rewrite (R_eqb_false b 0 H). Qed.

Lemma Math_log_Fin (x : R) : 0 < x -> Math_log (Fin x) = Fin (ln x).
Proof.
  intros H. cbn. rewrite (R_ltb_false x 0) by lra.
  rewrite (R_eqb_false x 0) by lra. reflexivity.
Qed.

Lemma Math_sqrt_Fin (x : R) : 0 <= x -> Math_sqrt (Fin x) = Fin (sqrt x).
Proof. intros H. cbn. now rewrite (R_ltb_false x 0 H). Qed.

Lemma vol_sqrt_pos (T sigma : R) : 0 < T -> 0 < sigma -> 0 < sigma * sqrt T.
Proof. intros HT Hs. apply Rmult_lt_0_compat; [exact Hs | now apply sqrt_lt_R0]. Qed.

Lemma finite_normal_record_ratio (S K T r sigma : R) :
  K <> 0 -> 0 < S / K -> 0 < T -> 0 < sigma ->
  normal_record Default.normCDF (Fin S) (Fin K) (Fin T) (Fin r) (Fin sigma)
  = {| premium := Fin (premium_R S K T r sigma);
       d1 := Fin (d1_R S K T r sigma);
       d2 := Fin (d2_R S K T r sigma);
       Nd1 := Fin (normCDF_R (d1_R S K T r sigma));
       Nd2 := Fin (normCDF_R (d2_R S K T r sigma));
       discountFactor := Fin (exp ((- r) * T)) |}.
Proof.
  intros HK HSK HT Hs.
  pose proof (vol_sqrt_pos T sigma HT Hs) as Hv.
  unfold normal_record. cbv zeta.
  rewrite (jdiv_Fin S K HK).
  rewrite (Math_log_Fin _ HSK).
  rewrite (Math_sqrt_Fin T) by lra.
  cbn [jmul jadd jneg jsub Math_exp].
  rewrite (jdiv_Fin _ (sigma * sqrt T)) by lra.
  cbn [jmul jadd jneg jsub Math_exp].
  rewrite !Default_normCDF_Fin.
  cbn [jmul jadd jneg jsub Math_exp].
  unfold premium_R, d2_R, d1_R. reflexivity.
Qed.

Lemma finite_normal_record (S K T r sigma : R) :
  0 < S -> 0 < K -> 0 < T -> 0 < sigma ->
  normal_record Default.normCDF (Fin S) (Fin K) (Fin T) (Fin r) (Fin sigma)
  = {| premium := Fin (premium_R S K T r sigma);
       d1 := Fin (d1_R S K T r sigma);
       d2 := Fin (d2_R S K T r sigma);
       Nd1 := Fin (normCDF_R (d1_R S K T r sigma));
       Nd2 := Fin (normCDF_R (d2_R S K T r sigma));
       discountFactor := Fin (exp ((- r) * T)) |}.
Proof.
  intros HS HK HT Hs. apply finite_normal_record_ratio; try lra.
  now apply Rdiv_lt_0_compat.
Qed.

Lemma finite_guard_false (T sigma : R) :
  0 < T -> 0 < sigma -> jle (Fin T) 0 || jle (Fin sigma) 0 = false.
Proof.
  intros HT Hs. cbn. now rewrite (R_leb_false T 0 HT), (R_leb_false sigma 0 Hs).
Qed.

Lemma Default_finite (S K T r sigma : R) :
  0 < S -> 0 < K -> 0 < T -> 0 < sigma ->
  Default.blackScholesCall (Fin S) (Fin K) (Fin T) (Fin r) (Fin sigma)
  = JObj {| premium := Fin (premium_R S K T r sigma);
            d1 := Fin (d1_R S K T r sigma);
            d2 := Fin (d2_R S K T r sigma);
            Nd1 := Fin (normCDF_R (d1_R S K T r sigma));
            Nd2 := Fin (normCDF_R (d2_R S K T r sigma));
            discountFactor := Fin (exp ((- r) * T)) |}.
Proof.
  intros HS HK HT Hs.
  rewrite Default_normal_path.
  - now rewrite finite_normal_record.
  - cbn. now rewrite (R_leb_false T 0 HT), (R_leb_false sigma 0 Hs).
Qed.

Lemma Reverse_finite (S K T r sigma : R) :
  0 < S -> 0 < K -> 0 < T -> 0 < sigma ->
  Reverse.blackScholesCall (Fin S) (Fin K) (Fin T) (Fin r) (Fin sigma)
  = JObj {| premium := Fin (premium_R S K T r sigma);
            d1 := Fin (d1_R S K T r sigma);
            d2 := Fin (d2_R S K T r sigma);
            Nd1 := Fin (normCDF_R (d1_R S K T r sigma));
            Nd2 := Fin (normCDF_R (d2_R S K T r sigma));
            discountFactor := Fin (exp ((- r) * T)) |}.
Proof.
  intros HS HK HT Hs. rewrite <- blackScholesCall_copies_agree.
  now apply Default_finite.
Qed.

(** ** [normCDF] at the special values, and its monotonicity *)

Lemma normCDF_PInf : Default.normCDF PInf = Fin 1.
Proof.
  unfold Default.normCDF. cbn. unfold signed_inf.
  rewrite (R_ltb_true 0 0.2316419) by lra. cbn.
  rewrite (R_ltb_false 2 0) by lra. cbn.
  f_equal. ring.
Qed.

Lemma normCDF_NInf : Default.normCDF NInf = Fin 0.
Proof.
  unfold Default.normCDF. cbn. unfold signed_inf.
  rewrite (R_ltb_true 0 0.2316419) by lra. cbn.
  rewrite (R_ltb_false 2 0) by lra. cbn.
  f_equal. ring.
Qed.

Lemma normCDF_NaN : Default.normCDF NaN = NaN.
Proof. reflexivity. Qed.

Lemma normCDF_monotone_js (x y : jsnum) :
  jle x y = true -> jle (Default.normCDF x) (Default.normCDF y) = true.
Proof.
  destruct x as [a| | |], y as [b| | |]; cbn [jle]; try congruence;
    rewrite ?Default_normCDF_Fin, ?normCDF_PInf, ?normCDF_NInf; cbn [jle];
    intros H; apply R_leb_true.
  - apply normCDF_R_monotone. unfold R_leb in H.
    destruct (Rle_dec a b); [assumption | discriminate].
  - pose proof (normCDF_R_range a). lra.
  - lra.
  - pose proof (normCDF_R_range b). lra.
  - lra.
  - lra.
Qed.

(** ** [d2 <= d1] in a result of the normal path *)

Lemma vol_sqrt_cases (T sigma : jsnum) :
  jgt T 0 = true -> jgt sigma 0 = true ->
  (exists b : R, (sigma * Math_sqrt T)%js = Fin b /\ 0 < b)
  \/ (sigma * Math_sqrt T)%js = PInf.
Proof.
  intros HT Hs.
  destruct (jgt_0_cases T HT) as [[t [-> Ht]] | ->];
    destruct (jgt_0_cases sigma Hs) as [[s [-> Hs']] | ->].
  - left. exists (s * sqrt t). rewrite Math_sqrt_Fin by lra.
    split; [reflexivity | now apply vol_sqrt_pos].
  - right. rewrite Math_sqrt_Fin by lra. cbn. unfold signed_inf.
    now rewrite (R_ltb_true 0 (sqrt t)) by (now apply sqrt_lt_R0).
  - right. cbn. unfold signed_inf. now rewrite (R_ltb_true 0 s Hs').
  - right. reflexivity.
Qed.

Lemma d2_le_d1 (n den : jsnum) :
  (exists b : R, den = Fin b /\ 0 < b) \/ den = PInf ->
  is_nan (n / den)%js = false ->
  jle (n / den - den)%js (n / den)%js = true.
Proof.
  intros [[b [-> Hb]] | ->] Hnan.
  - destruct n as [a| | |]; cbn in Hnan |- *; try discriminate.
    + rewrite (R_eqb_false b 0) by lra. cbn. apply R_leb_true. lra.
    + rewrite (R_ltb_false b 0) by lra. reflexivity.
    + rewrite (R_ltb_false b 0) by lra. reflexivity.
  - destruct n as [a| | |]; cbn in Hnan |- *; try discriminate. reflexivity.
Qed.

Lemma jle_add_tolerance (a b : jsnum) (e : R) :
  0 <= e -> jle a b = true -> jle a (b + Fin e)%js = true.
Proof.
  intros He.
  destruct a as [x| | |], b as [y| | |]; cbn; try congruence.
  unfold R_leb. destruct (Rle_dec x y), (Rle_dec x (y + e)); try congruence. lra.
Qed.

Lemma slider_positive (S K T r sigma : R) :
  slider_price S -> slider_price K -> slider_params T r sigma ->
  0 < S /\ 0 < K /\ 0 < T /\ 0 <= r /\ 0 < sigma.
Proof. unfold slider_price, slider_params. intros HS HK HP. lra. Qed.

(** C10 (amended).  [normCDF] is non-decreasing up to rounding: for all
    [x <= y], reals or infinities, [normCDF(x) <= normCDF(y) + 1e-9].  In
    a [blackScholesCall] result with [T > 0] and [sigma > 0] whose [d1] is
    not NaN, [d2 <= d1] and [Nd2 <= Nd1 + 1e-9].  On inputs within the
    ranges of the sliders [d1] is finite, [d2 <= d1] and [Nd2 <= Nd1]. *)
Theorem C10_normCDF_monotone :
  (forall x y : jsnum, jle x y = true ->
     jle (Default.normCDF x) (Default.normCDF y + 1e-9)%js = true /\
     jle (Reverse.normCDF x) (Reverse.normCDF y + 1e-9)%js = true)
  /\
  both_copies (fun bs =>
    forall S K T r sigma : jsnum,
      jgt T 0 = true -> jgt sigma 0 = true ->
      exists o : PricingResult,
        bs S K T r sigma = JObj o /\
        (is_nan (d1 o) = false ->
         jle (d2 o) (d1 o) = true /\ jle (Nd2 o) (Nd1 o + 1e-9)%js = true))
  /\
  both_copies (fun bs =>
    forall S K T r sigma : R,
      slider_price S -> slider_price K -> slider_params T r sigma ->
      exists o : PricingResult,
        bs (Fin S) (Fin K) (Fin T) (Fin r) (Fin sigma) = JObj o /\
        is_finite (d1 o) = true /\
        jle (d2 o) (d1 o) = true /\
        jle (Nd2 o) (Nd1 o) = true).
Proof.
  assert (Hres : forall S K T r sigma : jsnum,
     jgt T 0 = true -> jgt sigma 0 = true ->
     let o := normal_record Default.normCDF S K T r sigma in
     is_nan (d1 o) = false ->
     jle (d2 o) (d1 o) = true /\ jle (Nd2 o) (Nd1 o) = true).
  { intros S K T r sigma HT Hs o. subst o.
    unfold normal_record. cbv zeta. cbn [d1 d2 Nd1 Nd2].
    intros Hnan.
    pose proof (d2_le_d1 _ _ (vol_sqrt_cases T sigma HT Hs) Hnan) as Hle.
    split; [exact Hle | now apply normCDF_monotone_js]. }
  split; [| split].
  - intros x y H.
    split; apply jle_add_tolerance; try lra; [| change (Reverse.normCDF x) with (Default.normCDF x);
      change (Reverse.normCDF y) with (Default.normCDF y)]; now apply normCDF_monotone_js.
  - split; intros S K T r sigma HT Hs;
      pose proof (guard_false T sigma HT Hs) as Hg;
      exists (normal_record Default.normCDF S K T r sigma);
      (split; [first [apply (Default_normal_path _ _ _ _ _ Hg)
                     | apply (Reverse_normal_path _ _ _ _ _ Hg)] |]);
      intros Hnan; destruct (Hres S K T r sigma HT Hs Hnan) as [H1 H2];
      (split; [exact H1 | apply jle_add_tolerance; [lra | exact H2]]).
  - split; intros S K T r sigma HS HK HP;
      destruct (slider_positive S K T r sigma HS HK HP) as (H1 & H2 & H3 & H4 & H5);
      eexists;
      (split; [first [apply (Default_finite S K T r sigma H1 H2 H3 H5)
                     | apply (Reverse_finite S K T r sigma H1 H2 H3 H5)] |]);
      cbn [d1 d2 Nd1 Nd2 is_finite jle];
      (split; [reflexivity |]);
      pose proof (vol_sqrt_pos T sigma H3 H5) as Hv;
      (split; apply R_leb_true; [unfold d2_R; lra |]);
      apply normCDF_R_monotone; unfold d2_R; lra.
Qed.

Lemma C10_witness :
  jle (Default.normCDF (Fin (-1))) (Default.normCDF (Fin 2) + 1e-9)%js = true /\
  exists o : PricingResult,
    Default.blackScholesCall 2500 2400 1 0.05 0.2 = JObj o /\
    jle (Nd2 o) (Nd1 o) = true.
Proof.
  destruct C10_normCDF_monotone as [Hmono [_ [Hslider _]]].
  split.
  - apply (Hmono (Fin (-1)) (Fin 2)). cbn. apply R_leb_true. lra.
  - destruct (Hslider 2500 2400 1 0.05 0.2) as [o [Hd [_ [_ Hle]]]];
      unfold slider_price, slider_params; try lra.
    exists o. split; [exact Hd | exact Hle].
Defined.

(** C10, as the specification states it, fails: with [S = -1], [K = 1], [T = 1],
    [r = 0], [sigma = 1] (so [T > 0] and [sigma > 0]) [Math.log(S / K)] is
    NaN, [Nd1] and [Nd2] are NaN, and [Nd2 <= Nd1] is false. *)
Lemma C10_nan_result :
  exists o : PricingResult,
    Default.blackScholesCall (Fin (-1)) (Fin 1) (Fin 1) (Fin 0) (Fin 1) = JObj o /\
    jgt (Fin 1) 0 = true /\
    Nd1 o = NaN /\ Nd2 o = NaN /\
    jle (Nd2 o) (Nd1 o) = false.
Proof.
  eexists. split.
  - apply Default_normal_path. cbn. now rewrite (R_leb_false 1 0) by lra.
  - assert (HL : Math_log (Fin (-1) / Fin 1)%js = NaN).
    { rewrite jdiv_Fin by lra. cbn. now rewrite (R_ltb_true (-1 / 1) 0) by lra. }
    unfold normal_record. cbv zeta. rewrite HL. cbn.
    rewrite (R_ltb_true 0 1) by lra. repeat split.
Qed.

(** ** Non-positive prices *)

(** [Math.log(S / K)] on finite [S] and [K], by the signs of [S] and [K]. *)
Lemma log_ratio_positive (S K : R) :
  K <> 0 -> 0 < S / K -> Math_log (Fin S / Fin K)%js = Fin (ln (S / K)).
Proof. intros HK H. rewrite (jdiv_Fin S K HK). now apply Math_log_Fin. Qed.

Lemma log_ratio_negative (S K : R) :
  K <> 0 -> S / K < 0 -> Math_log (Fin S / Fin K)%js = NaN.
Proof.
  intros HK H. rewrite (jdiv_Fin S K HK). cbn. now rewrite (R_ltb_true (S / K) 0 H).
Qed.

Lemma log_ratio_zero_spot (K : R) :
  K <> 0 -> Math_log (Fin 0 / Fin K)%js = NInf.
Proof.
  intros HK. rewrite (jdiv_Fin 0 K HK). cbn.
  assert (E : 0 / K = 0) by (unfold Rdiv; ring). rewrite E.
  rewrite (R_ltb_false 0 0) by lra. now rewrite (R_eqb_true 0 0).
Qed.

Lemma log_ratio_zero_strike (S : R) :
  Math_log (Fin S / Fin 0)%js = if R_ltb 0 S then PInf else NaN.
Proof.
  cbn. rewrite (R_eqb_true 0 0) by reflexivity. unfold signed_inf.
  destruct (R_ltb 0 S); [reflexivity |]. destruct (R_ltb S 0); reflexivity.
Qed.

(** A special value of [Math.log(S / K)] is the value of [d1] and [d2]. *)
Lemma special_log_propagates (l : jsnum) (c b : R) :
  0 < b -> is_finite l = false ->
  ((l + Fin c) / Fin b)%js = l /\ (l - Fin b)%js = l.
Proof.
  intros Hb Hl. destruct l as [x| | |]; try discriminate; cbn;
    rewrite ?(R_ltb_false b 0) by lra; split; reflexivity.
Qed.

Lemma normal_record_special_log (S K : jsnum) (T r sigma : R) :
  0 < T -> 0 < sigma ->
  is_finite (Math_log (S / K)%js) = false ->
  d1 (normal_record Default.normCDF S K (Fin T) (Fin r) (Fin sigma))
    = Math_log (S / K)%js /\
  d2 (normal_record Default.normCDF S K (Fin T) (Fin r) (Fin sigma))
    = Math_log (S / K)%js /\
  Nd1 (normal_record Default.normCDF S K (Fin T) (Fin r) (Fin sigma))
    = Default.normCDF (Math_log (S / K)%js) /\
  Nd2 (normal_record Default.normCDF S K (Fin T) (Fin r) (Fin sigma))
    = Default.normCDF (Math_log (S / K)%js).
Proof.
  intros HT Hs Hl.
  pose proof (vol_sqrt_pos T sigma HT Hs) as Hv.
  unfold normal_record. cbv zeta. cbn [d1 d2 Nd1 Nd2].
  rewrite (Math_sqrt_Fin T) by lra.
  cbn [jmul jadd].
  destruct (special_log_propagates (Math_log (S / K)%js)
              ((r + 0.5 * (sigma * sigma)) * T) (sigma * sqrt T) Hv Hl) as [E1 E2].
  rewrite E1, E2. repeat split.
Qed.

Lemma both_negative_ratio (S K : R) : S < 0 -> K < 0 -> 0 < S / K.
Proof.
  intros HS HK. replace (S / K) with ((- S) / (- K)) by (field; lra).
  apply Rdiv_lt_0_compat; lra.
Qed.

Lemma d1_R_mirror (S K T r sigma : R) :
  K <> 0 ->
  d1_R (- S) (- K) T r sigma = d1_R S K T r sigma /\
  d2_R (- S) (- K) T r sigma = d2_R S K T r sigma /\
  premium_R (- S) (- K) T r sigma = - premium_R S K T r sigma.
Proof.
  intros HK.
  assert (E : - S / - K = S / K) by (field; lra).
  assert (E1 : d1_R (- S) (- K) T r sigma = d1_R S K T r sigma)
    by (unfold d1_R; now rewrite E).
  assert (E2 : d2_R (- S) (- K) T r sigma = d2_R S K T r sigma)
    by (unfold d2_R; now rewrite E1).
  split; [exact E1 |]. split; [exact E2 |].
  unfold premium_R. rewrite E1, E2. ring.
Qed.

(** The fields of the normal path on non-positive prices. *)
Lemma nonpositive_record (S K T r sigma : R) :
  0 < T -> 0 < sigma ->
  let o := normal_record Default.normCDF (Fin S) (Fin K) (Fin T) (Fin r) (Fin sigma) in
  (S = 0 -> K <> 0 ->
     d1 o = NInf /\ d2 o = NInf /\ Nd1 o = Fin 0 /\ Nd2 o = Fin 0) /\
  (S * K < 0 ->
     d1 o = NaN /\ d2 o = NaN /\ Nd1 o = NaN /\ Nd2 o = NaN /\ premium o = NaN) /\
  (K = 0 -> (d1 o = NaN \/ d1 o = PInf) /\ d2 o = d1 o) /\
  (K = 0 -> S = 0 ->
     d1 o = NaN /\ d2 o = NaN /\ Nd1 o = NaN /\ Nd2 o = NaN /\ premium o = NaN) /\
  (S < 0 -> K < 0 ->
     let o' := normal_record Default.normCDF (Fin (- S)) (Fin (- K)) (Fin T) (Fin r) (Fin sigma) in
     d1 o = d1 o' /\ d2 o = d2 o' /\ Nd1 o = Nd1 o' /\ Nd2 o = Nd2 o' /\
     discountFactor o = discountFactor o' /\
     premium o = (- premium o')%js /\
     is_finite (premium o) = true /\ is_finite (d1 o) = true /\
     is_finite (d2 o) = true /\ is_finite (Nd1 o) = true /\
     is_finite (Nd2 o) = true /\ is_finite (discountFactor o) = true).
Proof.
  intros HT Hs o.
  assert (Hspecial : forall l : jsnum,
            Math_log (Fin S / Fin K)%js = l -> is_finite l = false ->
            d1 o = l /\ d2 o = l /\
            Nd1 o = Default.normCDF l /\ Nd2 o = Default.normCDF l).
  { intros l El Hl. rewrite <- El in Hl |- *.
    exact (normal_record_special_log (Fin S) (Fin K) T r sigma HT Hs Hl). }
  assert (Hnan : Math_log (Fin S / Fin K)%js = NaN ->
            d1 o = NaN /\ d2 o = NaN /\ Nd1 o = NaN /\ Nd2 o = NaN /\ premium o = NaN).
  { intros El. destruct (Hspecial NaN El eq_refl) as [E1 [E2 [E3 E4]]].
    rewrite E1, E2, E3, E4. repeat split.
    subst o. unfold normal_record in E3 |- *. cbv zeta in E3 |- *.
    cbn [Nd1 premium] in E3 |- *. rewrite E3. reflexivity. }
  split; [| split; [| split; [| split]]].
  - intros -> HK.
    destruct (Hspecial NInf (log_ratio_zero_spot K HK) eq_refl) as [E1 [E2 [E3 E4]]].
    rewrite E1, E2, E3, E4, normCDF_NInf. repeat split.
  - intros Hopp. apply Hnan.
    assert (HK : K <> 0) by nra.
    apply log_ratio_negative; [exact HK |].
    destruct (Rlt_dec 0 K) as [HKpos | HKneg].
    + apply Rdiv_neg_pos; nra.
    + apply Rdiv_pos_neg; nra.
  - intros ->.
    pose proof (log_ratio_zero_strike S) as El.
    destruct (R_ltb 0 S).
    + destruct (Hspecial PInf El eq_refl) as [E1 [E2 _]]. rewrite E1, E2. split; [now right | reflexivity].
    + destruct (Hspecial NaN El eq_refl) as [E1 [E2 _]]. rewrite E1, E2. split; [now left | reflexivity].
  - intros -> ->. apply Hnan.
    rewrite log_ratio_zero_strike. now rewrite (R_ltb_false 0 0) by lra.
  - intros HS HK o'.
    assert (HK0 : K <> 0) by lra.
    destruct (d1_R_mirror S K T r sigma HK0) as [E1 [E2 E3]].
    subst o o'.
    rewrite (finite_normal_record_ratio S K T r sigma HK0 (both_negative_ratio S K HS HK) HT Hs).
    rewrite (finite_normal_record (- S) (- K) T r sigma) by lra.
    cbn [premium d1 d2 Nd1 Nd2 discountFactor jneg is_finite].
    rewrite E1, E2, E3. repeat split. f_equal. ring.
Qed.

(** C9 (amended).  For [T], [r] and [sigma] within the ranges of the
    sliders, [blackScholesCall] has no guard on the prices and returns the
    object of the normal path.  With [S = 0] and [K <> 0], [d1] and [d2]
    are [-Infinity] and [Nd1], [Nd2] are 0.  With [S] and [K] of opposite
    signs, [d1], [d2], [Nd1], [Nd2] and [premium] are NaN.  With [K = 0],
    [d1] is NaN or [+Infinity] and [d2] is the same, and all five are NaN
    when [S = 0] too.  With [S] and [K] both negative nothing undefined
    propagates: the six fields are finite, [d1], [d2], [Nd1], [Nd2] and
    [discountFactor] are those of the result on [- S] and [- K], and the
    premium is the opposite of the premium there.  Non-zero prices are
    taken between 1 and 5000 in absolute value. *)
Theorem C9_nonpositive_prices :
  both_copies (fun bs =>
    forall S K T r sigma : R,
      slider_params T r sigma ->
      exists o : PricingResult,
        bs (Fin S) (Fin K) (Fin T) (Fin r) (Fin sigma) = JObj o /\
        (S = 0 -> slider_price (Rabs K) ->
           d1 o = NInf /\ d2 o = NInf /\ Nd1 o = Fin 0 /\ Nd2 o = Fin 0) /\
        (S * K < 0 -> slider_price (Rabs S) -> slider_price (Rabs K) ->
           d1 o = NaN /\ d2 o = NaN /\ Nd1 o = NaN /\ Nd2 o = NaN /\ premium o = NaN) /\
        (K = 0 -> Rabs S <= 5000 ->
           (d1 o = NaN \/ d1 o = PInf) /\ d2 o = d1 o) /\
        (K = 0 -> S = 0 ->
           d1 o = NaN /\ d2 o = NaN /\ Nd1 o = NaN /\ Nd2 o = NaN /\ premium o = NaN) /\
        (S < 0 -> K < 0 -> slider_price (Rabs S) -> slider_price (Rabs K) ->
           exists o' : PricingResult,
             bs (Fin (- S)) (Fin (- K)) (Fin T) (Fin r) (Fin sigma) = JObj o' /\
             d1 o = d1 o' /\ d2 o = d2 o' /\ Nd1 o = Nd1 o' /\ Nd2 o = Nd2 o' /\
             discountFactor o = discountFactor o' /\
             premium o = (- premium o')%js /\
             is_finite (premium o) = true /\ is_finite (d1 o) = true /\
             is_finite (d2 o) = true /\ is_finite (Nd1 o) = true /\
             is_finite (Nd2 o) = true /\ is_finite (discountFactor o) = true)).
Proof.
  split; intros S K T r sigma HP;
    assert (HT : 0 < T) by (unfold slider_params in HP; lra);
    assert (Hs : 0 < sigma) by (unfold slider_params in HP; lra);
    pose proof (finite_guard_false T sigma HT Hs) as Hg;
    destruct (nonpositive_record S K T r sigma HT Hs) as (C1 & C2 & C3 & C4 & C5);
    exists (normal_record Default.normCDF (Fin S) (Fin K) (Fin T) (Fin r) (Fin sigma));
    (split; [first [apply (Default_normal_path _ _ _ _ _ Hg)
                   | apply (Reverse_normal_path _ _ _ _ _ Hg)] |]);
    (split; [intros E [HK _]; apply (C1 E); intros ->; rewrite Rabs_R0 in HK; lra |]);
    (split; [intros E _ _; exact (C2 E) |]);
    (split; [intros E _; exact (C3 E) |]);
    (split; [exact C4 |]);
    intros HS HK _ _;
    exists (normal_record Default.normCDF (Fin (- S)) (Fin (- K)) (Fin T) (Fin r) (Fin sigma));
    (split; [first [apply (Default_normal_path _ _ _ _ _ Hg)
                   | apply (Reverse_normal_path _ _ _ _ _ Hg)] | exact (C5 HS HK)]).
Qed.

Lemma C9_witness :
  exists o : PricingResult,
    Default.blackScholesCall (Fin (-2500)) (Fin 2400) (Fin 1) (Fin 0.05) (Fin 0.2) = JObj o /\
    d1 o = NaN /\ premium o = NaN.
Proof.
  destruct (proj1 C9_nonpositive_prices (-2500) 2400 1 0.05 0.2)
    as [o [Hd [_ [Hnan _]]]].
  - unfold slider_params. lra.
  - exists o. split; [exact Hd |].
    destruct Hnan as [E1 [_ [_ [_ E5]]]].
    + lra.
    + unfold slider_price. rewrite Rabs_left by lra. lra.
    + unfold slider_price. rewrite Rabs_pos_eq by lra. lra.
    + split; [exact E1 | exact E5].
Defined.

(** C9, as the specification states it, fails: with [S = -1] and [K = -1] (and
    [T = 1], [r = 0], [sigma = 1]) both prices are non-positive, yet
    [S / K = 1], [Math.log(S / K) = 0] is defined and finite, and the six
    returned fields are finite: nothing undefined or infinite propagates. *)
Lemma C9_both_negative_finite :
  exists o : PricingResult,
    Default.blackScholesCall (Fin (-1)) (Fin (-1)) (Fin 1) (Fin 0) (Fin 1) = JObj o /\
    Reverse.blackScholesCall (Fin (-1)) (Fin (-1)) (Fin 1) (Fin 0) (Fin 1) = JObj o /\
    Math_log (Fin (-1) / Fin (-1))%js = Fin 0 /\
    is_finite (premium o) = true /\
    is_finite (d1 o) = true /\
    is_finite (d2 o) = true /\
    is_finite (Nd1 o) = true /\
    is_finite (Nd2 o) = true /\
    is_finite (discountFactor o) = true.
Proof.
  assert (Hg : jle (Fin 1) 0 || jle (Fin 1) 0 = false)
    by (apply finite_guard_false; lra).
  assert (Hratio : 0 < -1 / -1) by (apply both_negative_ratio; lra).
  exists (normal_record Default.normCDF (Fin (-1)) (Fin (-1)) (Fin 1) (Fin 0) (Fin 1)).
  rewrite (Default_normal_path _ _ _ _ _ Hg), (Reverse_normal_path _ _ _ _ _ Hg).
  do 2 (split; [reflexivity |]).
  split.
  - rewrite log_ratio_positive by (lra || exact Hratio).
    f_equal. replace (-1 / -1) with 1 by (field; lra). apply ln_1.
  - rewrite (finite_normal_record_ratio (-1) (-1) 1 0 1) by (lra || exact Hratio).
    repeat split.
Qed.

(** ** The premium as the spot price grows *)

Lemma ln_monotone (x y : R) : 0 < x -> x <= y -> ln x <= ln y.
Proof.
  intros Hx [Hlt | ->]; [| lra]. left. now apply ln_increasing.
Qed.

Lemma d1_R_monotone (S1 S2 K T r sigma : R) :
  0 < K -> 0 < T -> 0 < sigma -> 0 < S1 -> S1 <= S2 ->
  d1_R S1 K T r sigma <= d1_R S2 K T r sigma.
Proof.
  intros HK HT Hs H1 H12.
  pose proof (vol_sqrt_pos T sigma HT Hs) as Hv.
  assert (Hln : ln (S1 / K) <= ln (S2 / K)).
  { apply ln_monotone.
    - now apply Rdiv_lt_0_compat.
    - unfold Rdiv. apply Rmult_le_compat_r; [| exact H12].
      left. now apply Rinv_0_lt_compat. }
  unfold d1_R, Rdiv. apply Rmult_le_compat_r.
  - left. now apply Rinv_0_lt_compat.
  - lra.
Qed.

Lemma d2_R_monotone (S1 S2 K T r sigma : R) :
  0 < K -> 0 < T -> 0 < sigma -> 0 < S1 -> S1 <= S2 ->
  d2_R S1 K T r sigma <= d2_R S2 K T r sigma.
Proof.
  intros HK HT Hs H1 H12. unfold d2_R.
  pose proof (d1_R_monotone S1 S2 K T r sigma HK HT Hs H1 H12). lra.
Qed.

(** *** The premium is not monotone: the jump of [normCDF] at 0 *)

Lemma cdf_q'_le_13 (t : R) : 0 <= t <= 1 -> cdf_q' t <= 13.
Proof.
  intros [H0 H1]. unfold cdf_q'.
  assert (H2 : 0 <= t * t <= 1) by nra.
  assert (H3 : 0 <= t * t * t <= 1) by nra.
  assert (H4 : 0 <= t * t * t * t <= 1) by nra.
  nra.
Qed.

Lemma cdf_q_lipschitz (s t : R) :
  0 <= s -> s <= t -> t <= 1 -> cdf_q t - cdf_q s <= 13 * (t - s).
Proof.
  intros H0 [Hlt | ->] H1; [| lra].
  destruct (MVT_cor2 cdf_q cdf_q' s t Hlt) as [c [Hc Hin]].
  - intros c _. apply cdf_q_deriv.
  - rewrite Hc. apply Rmult_le_compat_r; [lra |].
    apply cdf_q'_le_13. lra.
Qed.

Lemma cdf_t_nonneg (x : R) : 0 <= x -> cdf_t x = / (1 + 0.2316419 * x).
Proof. intros H. unfold cdf_t. rewrite Rabs_pos_eq by exact H. field. lra. Qed.

Lemma cdf_t_lipschitz (x y : R) :
  0 <= x -> x <= y -> cdf_t x - cdf_t y <= 0.2316419 * (y - x).
Proof.
  intros Hx Hxy. rewrite !cdf_t_nonneg by lra.
  assert (Hdx : 1 <= 1 + 0.2316419 * x) by lra.
  assert (Hdy : 1 <= 1 + 0.2316419 * y) by lra.
  replace (/ (1 + 0.2316419 * x) - / (1 + 0.2316419 * y))
    with (0.2316419 * (y - x) * (/ (1 + 0.2316419 * x) * / (1 + 0.2316419 * y)))
    by (field; lra).
  assert (Hix : 0 < / (1 + 0.2316419 * x) <= 1).
  { split; [apply Rinv_0_lt_compat; lra |].
    rewrite <- Rinv_1. apply Rinv_le_contravar; lra. }
  assert (Hiy : 0 < / (1 + 0.2316419 * y) <= 1).
  { split; [apply Rinv_0_lt_compat; lra |].
    rewrite <- Rinv_1. apply Rinv_le_contravar; lra. }
  assert (Hp : / (1 + 0.2316419 * x) * / (1 + 0.2316419 * y) <= 1) by nra.
  assert (Hh : 0 <= 0.2316419 * (y - x)) by nra.
  nra.
Qed.

Lemma gauss_lipschitz (x y : R) :
  0 <= x -> x <= y -> y <= 2 ->
  exp ((- x) * x / 2) - exp ((- y) * y / 2) <= 2 * (y - x).
Proof.
  intros Hx Hxy Hy.
  set (z := (- y) * y / 2 - (- x) * x / 2).
  assert (Ey : exp ((- y) * y / 2) = exp ((- x) * x / 2) * exp z).
  { rewrite <- exp_plus. f_equal. unfold z. ring. }
  pose proof (exp_ineq1_le z) as Hz.
  assert (Hex : 0 < exp ((- x) * x / 2) <= 1).
  { split; [apply exp_pos |].
    rewrite <- exp_0. destruct (Req_dec (x * x) 0) as [E | N].
    - right. f_equal. lra.
    - left. apply exp_increasing. nra. }
  assert (Hzb : - z <= 2 * (y - x)) by (unfold z; nra).
  rewrite Ey. nra.
Qed.

Lemma cdf_tail_lipschitz (x y : R) :
  0 <= x -> x <= y -> y <= 2 -> cdf_tail x - cdf_tail y <= 3 * (y - x).
Proof.
  intros Hx Hxy Hy. rewrite !cdf_tail_eq.
  pose proof (cdf_t_range x) as Htx. pose proof (cdf_t_range y) as Hty.
  assert (Habs : Rabs x <= Rabs y) by (rewrite !Rabs_pos_eq; lra).
  pose proof (cdf_t_antitone x y Habs) as Htxy.
  pose proof (cdf_t_lipschitz x y Hx Hxy) as Htl.
  assert (Hq : cdf_q (cdf_t x) - cdf_q (cdf_t y) <= 13 * (0.2316419 * (y - x))).
  { pose proof (cdf_q_lipschitz (cdf_t y) (cdf_t x)). lra. }
  pose proof (cdf_q_monotone _ _ Htxy) as Hqm.
  assert (Hq1 : cdf_q (cdf_t y) <= 1.2533137).
  { pose proof (cdf_q_monotone (cdf_t y) 1 (proj2 Hty)) as H.
    unfold cdf_q at 2, cdf_poly in H. lra. }
  pose proof (cdf_q_pos _ (proj1 Hty)) as Hq0.
  pose proof (gauss_lipschitz x y Hx Hxy Hy) as Hg.
  pose proof (gauss_antitone x y Habs) as Hga.
  pose proof (exp_pos ((- y) * y / 2)) as Hey.
  assert (Hex : exp ((- x) * x / 2) <= 1).
  { rewrite <- exp_0. destruct (Req_dec (x * x) 0) as [E | N].
    - right. f_equal. lra.
    - left. apply exp_increasing. nra. }
  set (A := exp ((- x) * x / 2)) in *.
  set (B := exp ((- y) * y / 2)) in *.
  set (u := cdf_q (cdf_t x)) in *.
  set (v := cdf_q (cdf_t y)) in *.
  assert (H1 : A * (u - v) <= u - v) by nra.
  assert (H2 : (A - B) * v <= 2 * (y - x) * 1.2533137) by nra.
  nra.
Qed.

Lemma premium_R_drops :
  premium_R 1.000000001 1 1 0.5 1 < premium_R 1 1 1 0.5 1.
Proof.
  set (S2 := 1.000000001).
  set (dl := ln (S2 / 1)).
  assert (HS2 : S2 / 1 = S2) by (unfold Rdiv; rewrite Rinv_1; ring).
  assert (Hdl0 : 0 < dl).
  { unfold dl. rewrite HS2, <- ln_1. apply ln_increasing; unfold S2; lra. }
  assert (Hdl1 : dl < 0.000000001).
  { unfold dl. rewrite HS2.
    rewrite <- (ln_exp 0.000000001). apply ln_increasing; [unfold S2; lra |].
    pose proof (exp_ineq1 0.000000001). unfold S2. lra. }
  assert (Ed1 : d1_R S2 1 1 0.5 1 = 1 + dl).
  { unfold d1_R. fold dl. rewrite sqrt_1. lra. }
  assert (Ed2 : d2_R S2 1 1 0.5 1 = dl).
  { unfold d2_R. rewrite Ed1, sqrt_1. ring. }
  assert (Ed1' : d1_R 1 1 1 0.5 1 = 1).
  { unfold d1_R. replace (1 / 1) with 1 by lra. rewrite ln_1, sqrt_1. lra. }
  assert (Ed2' : d2_R 1 1 1 0.5 1 = 0).
  { unfold d2_R. rewrite Ed1', sqrt_1. ring. }
  unfold premium_R. rewrite Ed1, Ed2, Ed1', Ed2'.
  rewrite (normCDF_R_pos (1 + dl)), (normCDF_R_pos dl), (normCDF_R_pos 1) by lra.
  rewrite (normCDF_R_nonpos 0) by lra.
  assert (Hlip : cdf_tail 1 - cdf_tail (1 + dl) <= 3 * (1 + dl - 1))
    by (apply cdf_tail_lipschitz; lra).
  pose proof (cdf_tail_pos (1 + dl)) as Hpos.
  assert (Hle0 : cdf_tail dl <= cdf_tail 0).
  { apply cdf_tail_antitone. rewrite Rabs_R0. apply Rabs_pos. }
  rewrite cdf_tail_0 in *.
  match goal with
  | |- context [exp ?z] =>
      pose proof (exp_ineq1_le z) as He; pose proof (exp_pos z) as He0;
      set (E := exp z) in *
  end.
  set (a := cdf_tail (1 + dl)) in *.
  set (b := cdf_tail 1) in *.
  set (c := cdf_tail dl) in *.
  assert (Hb : b - a <= 3 * dl) by lra.
  assert (Hs : S2 * (1 - a) <= 1 - a + 0.000000001) by (unfold S2; nra).
  assert (Hc : 0.5 * (1 - c - 0.3989423 * 1.2533137) <= E * (1 - c - 0.3989423 * 1.2533137)) by nra.
  nra.
Qed.

(** C7, as the specification states it, fails: with [K = 1], [T = 1], [r = 0.5],
    [sigma = 1], the premium at [S = 1.000000001] is smaller than the
    premium at [S = 1].  At [S = 1], [d2 = 0] and [Nd2 = normCDF(0)], about
    0.49999985; just above, [d2 > 0] and [Nd2 = 1 - prob], about
    0.50000015: the term [K * discountFactor * Nd2] jumps up by more than
    [S * Nd1] has grown. *)
Lemma C7_premium_drops :
  exists p1 p2 : R,
    get_prop premium (Default.blackScholesCall 1 1 1 0.5 1) = Some (Fin p1) /\
    get_prop premium (Default.blackScholesCall 1.000000001 1 1 0.5 1) = Some (Fin p2) /\
    get_prop premium (Reverse.blackScholesCall 1 1 1 0.5 1) = Some (Fin p1) /\
    get_prop premium (Reverse.blackScholesCall 1.000000001 1 1 0.5 1) = Some (Fin p2) /\
    1 < 1.000000001 /\
    p2 < p1 /\
    jle (Fin p1) (Fin p2) = false.
Proof.
  exists (premium_R 1 1 1 0.5 1), (premium_R 1.000000001 1 1 0.5 1).
  rewrite !Reverse_finite, !Default_finite by lra.
  cbn [get_prop premium jle].
  pose proof premium_R_drops as H.
  repeat split; try reflexivity; try lra.
  now apply R_leb_false.
Qed.

(** The premium also drops within the ranges of the sliders: with [K = 1],
    [T = 1], [r = 0.125], [sigma = 0.5], [d2] is 0 at [S = 1]. *)
Lemma premium_R_drops_in_range :
  premium_R 1.000000001 1 1 0.125 0.5 < premium_R 1 1 1 0.125 0.5.
Proof.
  set (S2 := 1.000000001).
  set (dl := ln (S2 / 1)).
  assert (HS2 : S2 / 1 = S2) by (unfold Rdiv; rewrite Rinv_1; ring).
  assert (Hdl0 : 0 < dl).
  { unfold dl. rewrite HS2, <- ln_1. apply ln_increasing; unfold S2; lra. }
  assert (Hdl1 : dl < 0.000000001).
  { unfold dl. rewrite HS2.
    rewrite <- (ln_exp 0.000000001). apply ln_increasing; [unfold S2; lra |].
    pose proof (exp_ineq1 0.000000001). unfold S2. lra. }
  assert (Ed1 : d1_R S2 1 1 0.125 0.5 = 0.5 + 2 * dl).
  { unfold d1_R. fold dl. rewrite sqrt_1. lra. }
  assert (Ed2 : d2_R S2 1 1 0.125 0.5 = 2 * dl).
  { unfold d2_R. rewrite Ed1, sqrt_1. lra. }
  assert (Ed1' : d1_R 1 1 1 0.125 0.5 = 0.5).
  { unfold d1_R. replace (1 / 1) with 1 by lra. rewrite ln_1, sqrt_1. lra. }
  assert (Ed2' : d2_R 1 1 1 0.125 0.5 = 0).
  { unfold d2_R. rewrite Ed1', sqrt_1. lra. }
  unfold premium_R. rewrite Ed1, Ed2, Ed1', Ed2'.
  rewrite (normCDF_R_pos (0.5 + 2 * dl)), (normCDF_R_pos (2 * dl)), (normCDF_R_pos 0.5) by lra.
  rewrite (normCDF_R_nonpos 0) by lra.
  assert (Hlip : cdf_tail 0.5 - cdf_tail (0.5 + 2 * dl) <= 3 * (0.5 + 2 * dl - 0.5))
    by (apply cdf_tail_lipschitz; lra).
  pose proof (cdf_tail_pos (0.5 + 2 * dl)) as Hpos.
  assert (Hle0 : cdf_tail (2 * dl) <= cdf_tail 0).
  { apply cdf_tail_antitone. rewrite Rabs_R0. apply Rabs_pos. }
  rewrite cdf_tail_0 in *.
  match goal with
  | |- context [exp ?z] =>
      pose proof (exp_ineq1_le z) as He; pose proof (exp_pos z) as He0;
      set (E := exp z) in *
  end.
  set (a := cdf_tail (0.5 + 2 * dl)) in *.
  set (b := cdf_tail 0.5) in *.
  set (c := cdf_tail (2 * dl)) in *.
  assert (Hb : b - a <= 6 * dl) by lra.
  assert (Hs : S2 * (1 - a) <= 1 - a + 0.000000001) by (unfold S2; nra).
  assert (Hc : 0.8 * (1 - c - 0.3989423 * 1.2533137) <= E * (1 - c - 0.3989423 * 1.2533137)) by nra.
  nra.
Qed.

Lemma premium_drops_within_sliders :
  slider_price 1 /\ slider_price 1.000000001 /\ slider_params 1 0.125 0.5 /\
  exists p1 p2 : R,
    get_prop premium (Default.blackScholesCall 1 1 1 0.125 0.5) = Some (Fin p1) /\
    get_prop premium (Default.blackScholesCall 1.000000001 1 1 0.125 0.5) = Some (Fin p2) /\
    get_prop premium (Reverse.blackScholesCall 1 1 1 0.125 0.5) = Some (Fin p1) /\
    get_prop premium (Reverse.blackScholesCall 1.000000001 1 1 0.125 0.5) = Some (Fin p2) /\
    p2 < p1.
Proof.
  unfold slider_price, slider_params.
  split; [lra |]. split; [lra |]. split; [lra |].
  exists (premium_R 1 1 1 0.125 0.5), (premium_R 1.000000001 1 1 0.125 0.5).
  rewrite !Reverse_finite, !Default_finite by lra.
  cbn [get_prop premium].
  pose proof premium_R_drops_in_range as H.
  repeat split; try reflexivity. exact H.
Qed.

(** *** Up to that jump the premium is monotone

    The premium is [K * discountFactor * bs_F w d2].  On each of the three
    intervals where [d2] and [d1 = d2 + w] keep their branch of [normCDF],
    [bs_F w] has a non-negative derivative; at [d2 = - w] it jumps upward,
    at [d2 = 0] downward by [cdf_jump]. *)

Ltac deriv_pt :=
  repeat first [ apply derivable_pt_lim_id
               | apply derivable_pt_lim_const
               | apply derivable_pt_lim_exp
               | apply cdf_q_deriv
               | eapply derivable_pt_lim_plus
               | eapply derivable_pt_lim_minus
               | eapply derivable_pt_lim_mult
               | eapply derivable_pt_lim_opp
               | eapply derivable_pt_lim_comp ].

Lemma cdf_ts_rel (u : R) : 0 <= u -> cdf_ts u * (1 + 0.2316419 * u) = 1.
Proof.
  intros Hu. unfold cdf_ts. unfold Rdiv. rewrite Rmult_1_l.
  apply Rinv_l. lra.
Qed.

Lemma cdf_ts_range (u : R) : 0 <= u -> 0 < cdf_ts u <= 1.
Proof.
  intros Hu. pose proof (cdf_t_range u) as H.
  unfold cdf_t in H. rewrite Rabs_pos_eq in H by exact Hu. exact H.
Qed.

Lemma cdf_ts_deriv (u : R) : 0 <= u ->
  derivable_pt_lim cdf_ts u (- (0.2316419 * (cdf_ts u * cdf_ts u))).
Proof.
  intros Hu.
  evar (l : R).
  assert (Hl : derivable_pt_lim (fct_cte 1 / (fct_cte 1 + fct_cte 0.2316419 * id))%F u l).
  { subst l. eapply derivable_pt_lim_div; [deriv_pt | deriv_pt |].
    unfold plus_fct, mult_fct, fct_cte, id. lra. }
  replace (- (0.2316419 * (cdf_ts u * cdf_ts u))) with l; [exact Hl |].
  subst l. unfold cdf_ts, plus_fct, mult_fct, fct_cte, id, Rsqr.
  set (p := 0.2316419) in *.
  assert (Hp : 0 < p) by (unfold p; lra).
  clearbody p. field. nra.
Qed.

Lemma cdf_Hp_deriv (t : R) : derivable_pt_lim cdf_Hp t (cdf_Hp' t).
Proof.
  evar (l : R).
  assert (Hl : derivable_pt_lim
     ((fct_cte 1 - id) * (fct_cte 0.3193815 + id * (fct_cte (-0.3565638) + id * (fct_cte 1.781478
                    + id * (fct_cte (-1.821256) + id * fct_cte 1.330274))))
      + fct_cte (0.2316419 * 0.2316419) * (id * id)
        * (fct_cte 0.3193815 + id * (fct_cte (2 * -0.3565638) + id * (fct_cte (3 * 1.781478)
            + id * (fct_cte (4 * -1.821256) + id * fct_cte (5 * 1.330274))))))%F t l).
  { subst l. deriv_pt. }
  replace (cdf_Hp' t) with l; [exact Hl |].
  subst l. unfold cdf_Hp', cdf_poly, cdf_q', plus_fct, minus_fct, mult_fct, fct_cte, id. ring.
Qed.

(** Bounds of polynomials on [[0, 1]], from the products
    [t^i * (1 - t)^(6 - i)], which are non-negative there. *)
Lemma unit_interval_products (t : R) : 0 <= t <= 1 ->
  0 <= (1 - t) * (1 - t) * (1 - t) * (1 - t) * (1 - t) * (1 - t)
  /\ 0 <= t * ((1 - t) * (1 - t) * (1 - t) * (1 - t) * (1 - t))
  /\ 0 <= t * t * ((1 - t) * (1 - t) * (1 - t) * (1 - t))
  /\ 0 <= t * t * t * ((1 - t) * (1 - t) * (1 - t))
  /\ 0 <= t * t * t * t * ((1 - t) * (1 - t))
  /\ 0 <= t * t * t * t * t * (1 - t)
  /\ 0 <= t * t * t * t * t * t.
Proof.
  intros [H0 H1].
  assert (Hs : 0 <= 1 - t) by lra.
  repeat split; repeat apply Rmult_le_pos; assumption.
Qed.

Lemma cdf_poly_quarter (t : R) : 0 <= t <= 1 -> 1 / 4 <= cdf_poly t.
Proof.
  intros Ht. destruct (unit_interval_products t Ht) as (B0 & B1 & B2 & B3 & B4 & B5 & B6).
  unfold cdf_poly. lra.
Qed.

Lemma cdf_Hp'_bound (t : R) : 0 <= t <= 1 -> - (1 / 4) <= t * cdf_Hp' t <= 1 / 4.
Proof.
  intros Ht. destruct (unit_interval_products t Ht) as (B0 & B1 & B2 & B3 & B4 & B5 & B6).
  unfold cdf_Hp', cdf_poly, cdf_q'. split; lra.
Qed.

(** The derivative of [prob] as a function of [|x|]. *)
Lemma gauss_deriv (u : R) :
  derivable_pt_lim (fun u => exp ((- u) * u / 2)) u (- u * exp ((- u) * u / 2)).
Proof.
  evar (l : R).
  assert (Hl : derivable_pt_lim (comp exp ((- id) * id * fct_cte (/ 2)))%F u l).
  { subst l. deriv_pt. }
  replace (- u * exp ((- u) * u / 2)) with l; [exact Hl |].
  subst l. unfold comp, mult_fct, opp_fct, fct_cte, id.
  unfold Rdiv. set (E := exp (- u * u * / 2)). lra.
Qed.

Lemma cdf_g_deriv (u : R) : 0 <= u -> derivable_pt_lim cdf_g u (cdf_g' u).
Proof.
  intros Hu.
  evar (l : R).
  assert (Hl : derivable_pt_lim
            (fct_cte 0.3989423 * (fun u => exp ((- u) * u / 2)) * comp cdf_q cdf_ts)%F u l).
  { subst l.
    eapply derivable_pt_lim_mult.
    - eapply derivable_pt_lim_mult; [apply derivable_pt_lim_const | apply gauss_deriv].
    - eapply derivable_pt_lim_comp; [apply cdf_ts_deriv; exact Hu | apply cdf_q_deriv]. }
  replace (cdf_g' u) with l; [exact Hl |].
  subst l. unfold cdf_g', cdf_Hp, cdf_q, comp, mult_fct, fct_cte.
  pose proof (cdf_ts_rel u Hu) as Hrel.
  set (t := cdf_ts u) in *. set (E := exp (- u * u / 2)).
  set (Q := cdf_q' t). set (P := cdf_poly t).
  assert (Hut : u * t = (1 - t) / 0.2316419) by lra.
  replace (0 * E + 0.3989423 * (- u * E)) with (- (0.3989423 * E * u)) by ring.
  replace (- (0.3989423 * E * u) * (t * P)) with (- (0.3989423 * E * P * (u * t))) by ring.
  rewrite Hut.
  set (p := 0.2316419) in *. assert (0 < p) by (unfold p; lra). clearbody p.
  set (c := 0.3989423). clearbody c.
  field. lra.
Qed.

(** The variation of the polynomial part of the derivative. *)
Lemma cdf_Hp_lipschitz (u1 u2 : R) : 0 <= u1 <= u2 ->
  Rabs (cdf_Hp (cdf_ts u2) - cdf_Hp (cdf_ts u1))
  <= 0.2316419 * (u2 - u1) * cdf_ts u1 / 4.
Proof.
  intros [H1 H12].
  pose proof (cdf_ts_range u1 H1) as [Ht1 Ht1'].
  assert (H2 : 0 <= u2) by lra.
  pose proof (cdf_ts_range u2 H2) as [Ht2 Ht2'].
  pose proof (cdf_ts_rel u1 H1) as R1.
  pose proof (cdf_ts_rel u2 H2) as R2.
  set (t1 := cdf_ts u1) in *. set (t2 := cdf_ts u2) in *.
  assert (Hd : t1 - t2 = 0.2316419 * (u2 - u1) * t1 * t2) by nra.
  destruct (Req_dec u1 u2) as [-> | Hne].
  - subst t1 t2. rewrite Rminus_diag, Rabs_R0. nra.
  - assert (Hlt : t2 < t1) by nra.
    destruct (MVT_cor2 cdf_Hp cdf_Hp' t2 t1 Hlt) as [c [Hc [Hc1 Hc2]]].
    { intros c _. apply cdf_Hp_deriv. }
    assert (Hb : - (1 / 4) <= c * cdf_Hp' c <= 1 / 4) by (apply cdf_Hp'_bound; lra).
    rewrite Rabs_minus_sym. rewrite Hc.
    set (D := cdf_Hp' c) in *.
    apply Rabs_le.
    assert (0 < 0.2316419 * (u2 - u1) * t1) by (apply Rmult_lt_0_compat; [| exact Ht1]; nra).
    set (M := 0.2316419 * (u2 - u1) * t1) in *.
    rewrite Hd.
    assert (Hcd : - (1/4) <= t2 * D <= 1/4).
    { destruct (Rle_dec 0 D).
      - split; [nra |]. apply Rle_trans with (c * D); [nra | lra].
      - split; [| nra]. apply Rle_trans with (c * D); [lra | nra]. }
    replace (D * (M * t2)) with (M * (t2 * D)) by ring.
    split; nra.
Qed.

(** The three pieces of [bs_F] and their derivatives. *)
Ltac deriv_g :=
  repeat match goal with
         | |- derivable_pt_lim id _ _ => apply derivable_pt_lim_id
         | |- derivable_pt_lim (fct_cte _) _ _ => apply derivable_pt_lim_const
         | |- derivable_pt_lim exp _ _ => apply derivable_pt_lim_exp
         | |- derivable_pt_lim cdf_g _ _ => apply cdf_g_deriv
         | |- derivable_pt_lim (plus_fct _ _) _ _ => eapply derivable_pt_lim_plus
         | |- derivable_pt_lim (minus_fct _ _) _ _ => eapply derivable_pt_lim_minus
         | |- derivable_pt_lim (mult_fct _ _) _ _ => eapply derivable_pt_lim_mult
         | |- derivable_pt_lim (opp_fct _) _ _ => eapply derivable_pt_lim_opp
         | |- derivable_pt_lim (comp _ _) _ _ => eapply derivable_pt_lim_comp
         end.

Lemma nondecreasing_of_derivative (f f' : R -> R) (a b : R) :
  a <= b ->
  (forall c : R, a <= c <= b -> derivable_pt_lim f c (f' c)) ->
  (forall c : R, a <= c <= b -> 0 <= f' c) ->
  f a <= f b.
Proof.
  intros [Hlt | ->] Hd Hp; [| lra].
  destruct (MVT_cor2 f f' a b Hlt Hd) as [c [Hc Hc']].
  assert (0 <= f' c) by (apply Hp; lra).
  nra.
Qed.

Lemma bs_F_pos_deriv (w x : R) : 0 <= w -> 0 <= x ->
  derivable_pt_lim (bs_F_pos w) x (bs_F_pos' w x).
Proof.
  intros Hw Hx.
  evar (l : R).
  assert (Hl : derivable_pt_lim
     (comp exp (fct_cte w * id + fct_cte (w * w / 2)) * (fct_cte 1 - comp cdf_g (id + fct_cte w))
      - (fct_cte 1 - cdf_g))%F x l).
  { subst l. deriv_g.
    - unfold plus_fct, id, fct_cte. lra.
    - exact Hx. }
  replace (bs_F_pos' w x) with l; [exact Hl |].
  subst l. unfold bs_F_pos', comp, plus_fct, minus_fct, mult_fct, fct_cte, id. ring.
Qed.

Lemma bs_F_mid_deriv (w x : R) : - w <= x <= 0 ->
  derivable_pt_lim (bs_F_mid w) x (bs_F_mid' w x).
Proof.
  intros Hx.
  evar (l : R).
  assert (Hl : derivable_pt_lim
     (comp exp (fct_cte w * id + fct_cte (w * w / 2)) * (fct_cte 1 - comp cdf_g (id + fct_cte w))
      - comp cdf_g (- id))%F x l).
  { subst l. deriv_g.
    - unfold plus_fct, id, fct_cte. lra.
    - unfold opp_fct, id. lra. }
  replace (bs_F_mid' w x) with l; [exact Hl |].
  subst l. unfold bs_F_mid', comp, plus_fct, minus_fct, mult_fct, opp_fct, fct_cte, id. ring.
Qed.

Lemma bs_F_neg_deriv (w x : R) : 0 <= w -> x <= - w ->
  derivable_pt_lim (bs_F_neg w) x (bs_F_neg' w x).
Proof.
  intros Hw Hx.
  evar (l : R).
  assert (Hl : derivable_pt_lim
     (comp exp (fct_cte w * id + fct_cte (w * w / 2)) * comp cdf_g (- (id + fct_cte w))
      - comp cdf_g (- id))%F x l).
  { subst l. deriv_g.
    - unfold opp_fct, plus_fct, id, fct_cte. lra.
    - unfold opp_fct, id. lra. }
  replace (bs_F_neg' w x) with l; [exact Hl |].
  subst l. unfold bs_F_neg', comp, plus_fct, minus_fct, mult_fct, opp_fct, fct_cte, id. ring.
Qed.

Lemma Rabs_le_both (x y : R) : Rabs x <= y -> - y <= x <= y.
Proof. unfold Rabs. destruct (Rcase_abs x); lra. Qed.

Lemma cdf_tail_g_pos (x : R) : 0 <= x -> cdf_tail x = cdf_g x.
Proof.
  intros Hx. unfold cdf_tail, cdf_g, cdf_q, cdf_t, cdf_ts.
  rewrite (Rabs_pos_eq x Hx). ring.
Qed.

Lemma cdf_tail_g_neg (x : R) : x <= 0 -> cdf_tail x = cdf_g (- x).
Proof.
  intros Hx. unfold cdf_tail, cdf_g, cdf_q, cdf_t, cdf_ts.
  rewrite (Rabs_left1 x Hx).
  replace (- - x * - x / 2) with (- x * x / 2) by lra. ring.
Qed.

Lemma cdf_g_range (u : R) : 0 <= u -> 0 < cdf_g u < 1 / 2.
Proof.
  intros Hu. rewrite <- (cdf_tail_g_pos u Hu).
  split; [apply cdf_tail_pos | apply cdf_tail_lt_half].
Qed.

Lemma gauss_shift (w x : R) :
  exp (w * x + w * w / 2) * exp (- (x + w) * (x + w) / 2) = exp (- x * x / 2).
Proof. rewrite <- exp_plus. f_equal. lra. Qed.

Lemma gauss_le_1 (x : R) : 0 < exp (- x * x / 2) <= 1.
Proof.
  split; [apply exp_pos |].
  rewrite <- exp_0.
  destruct (Req_dec x 0) as [-> | Hx].
  - right. f_equal. lra.
  - left. apply exp_increasing. nra.
Qed.

Lemma exp_ge_1 (a : R) : 0 <= a -> 1 <= exp a.
Proof.
  intros [Ha | <-]; [| rewrite exp_0; lra].
  left. rewrite <- exp_0. apply exp_increasing. exact Ha.
Qed.

Lemma bs_F_pos'_nonneg (w x : R) : 0 <= w -> 0 <= x -> 0 <= bs_F_pos' w x.
Proof.
  intros Hw Hx. unfold bs_F_pos', cdf_g'.
  pose proof (gauss_shift w x) as Hs.
  pose proof (gauss_le_1 x) as [HE1 HE1'].
  pose proof (exp_pos (- (x + w) * (x + w) / 2)) as HE2.
  assert (Ha : 1 <= exp (w * x + w * w / 2)) by (apply exp_ge_1; nra).
  assert (Hg : 0 < cdf_g (x + w) < 1 / 2) by (apply cdf_g_range; lra).
  assert (HL : Rabs (cdf_Hp (cdf_ts (x + w)) - cdf_Hp (cdf_ts x))
               <= 0.2316419 * (x + w - x) * cdf_ts x / 4)
    by (apply cdf_Hp_lipschitz; lra).
  pose proof (cdf_ts_range x Hx) as [Ht Ht'].
  apply Rabs_le_both in HL.
  set (Ea := exp (w * x + w * w / 2)) in *.
  set (E1 := exp (- x * x / 2)) in *.
  set (E2 := exp (- (x + w) * (x + w) / 2)) in *.
  set (G := cdf_g (x + w)) in *.
  set (H1 := cdf_Hp (cdf_ts x)) in *.
  set (H2 := cdf_Hp (cdf_ts (x + w))) in *.
  set (t := cdf_ts x) in *.
  clearbody Ea E1 E2 G H2 H1 t.
  replace (w * Ea * (1 - G) - Ea * (- (0.3989423 / 0.2316419) * E2 * H2)
           + - (0.3989423 / 0.2316419) * E1 * H1)
    with (w * Ea * (1 - G) + 0.3989423 / 0.2316419 * (E1 * (H2 - H1)))
    by (rewrite <- Hs; ring).
  assert (Hwt : 0 <= w * t <= w) by nra.
  assert (HD : - (0.2316419 * w / 4) <= H2 - H1) by lra.
  assert (HED : - (0.2316419 * w / 4) <= E1 * (H2 - H1)).
  { destruct (Rle_dec 0 (H2 - H1)); nra. }
  assert (HM : w <= w * Ea) by nra.
  assert (w * Ea / 2 <= w * Ea * (1 - G)) by nra.
  lra.
Qed.

Lemma bs_F_mid'_nonneg (w x : R) : - w <= x <= 0 -> 0 <= bs_F_mid' w x.
Proof.
  intros Hx. unfold bs_F_mid', cdf_g'.
  assert (Hw : 0 <= w) by lra.
  pose proof (gauss_shift w x) as Hs.
  pose proof (gauss_le_1 (x + w)) as [HE2 HE2'].
  pose proof (exp_pos (w * x + w * w / 2)) as Ha.
  assert (Hg : 0 < cdf_g (x + w) < 1 / 2) by (apply cdf_g_range; lra).
  assert (HL : Rabs (cdf_Hp (cdf_ts (x + w)) - cdf_Hp (cdf_ts (- x)))
               <= 0.2316419 * w / 4).
  { destruct (Rle_dec (x + w) (- x)) as [Hle | Hgt].
    - rewrite Rabs_minus_sym.
      eapply Rle_trans; [apply cdf_Hp_lipschitz; lra |].
      pose proof (cdf_ts_range (x + w)) as Ht. nra.
    - eapply Rle_trans; [apply cdf_Hp_lipschitz; lra |].
      pose proof (cdf_ts_range (- x)) as Ht. nra. }
  apply Rabs_le_both in HL.
  replace (- - x * - x / 2) with (- x * x / 2) by lra.
  set (Ea := exp (w * x + w * w / 2)) in *.
  set (E1 := exp (- x * x / 2)) in *.
  set (E2 := exp (- (x + w) * (x + w) / 2)) in *.
  set (G := cdf_g (x + w)) in *.
  set (H1 := cdf_Hp (cdf_ts (- x))) in *.
  set (H2 := cdf_Hp (cdf_ts (x + w))) in *.
  replace (w * Ea * (1 - G) - Ea * (- (0.3989423 / 0.2316419) * E2 * H2)
           + - (0.3989423 / 0.2316419) * E1 * H1)
    with (Ea * (w * (1 - G) + 0.3989423 / 0.2316419 * (E2 * (H2 - H1))))
    by (rewrite <- Hs; ring).
  apply Rmult_le_pos; [lra |].
  assert (HED : - (0.2316419 * w / 4) <= E2 * (H2 - H1)).
  { destruct (Rle_dec 0 (H2 - H1)); nra. }
  assert (w / 2 <= w * (1 - G)) by nra.
  lra.
Qed.

Lemma bs_F_neg'_nonneg (w x : R) : 0 <= w -> x <= - w -> 0 <= bs_F_neg' w x.
Proof.
  intros Hw Hx. unfold bs_F_neg', cdf_g', cdf_g at 1.
  pose proof (gauss_shift w x) as Hs.
  pose proof (exp_pos (- x * x / 2)) as HE1.
  assert (Hu : 0 <= - (x + w)) by lra.
  pose proof (cdf_ts_range _ Hu) as [Ht Ht'].
  assert (HL : Rabs (cdf_Hp (cdf_ts (- x)) - cdf_Hp (cdf_ts (- (x + w))))
               <= 0.2316419 * (- x - - (x + w)) * cdf_ts (- (x + w)) / 4)
    by (apply cdf_Hp_lipschitz; lra).
  apply Rabs_le_both in HL.
  pose proof (cdf_poly_quarter (cdf_ts (- (x + w)))) as HP.
  replace (- - x * - x / 2) with (- x * x / 2) by lra.
  replace (- - (x + w) * - (x + w) / 2) with (- (x + w) * (x + w) / 2) by lra.
  unfold cdf_q.
  set (Ea := exp (w * x + w * w / 2)) in *.
  set (E1 := exp (- x * x / 2)) in *.
  set (E2 := exp (- (x + w) * (x + w) / 2)) in *.
  set (t := cdf_ts (- (x + w))) in *.
  set (P := cdf_poly t) in *.
  set (H1 := cdf_Hp (cdf_ts (- x))) in *.
  set (H2 := cdf_Hp t) in *.
  replace (w * Ea * (0.3989423 * E2 * (t * P)) - Ea * (- (0.3989423 / 0.2316419) * E2 * H2)
           + - (0.3989423 / 0.2316419) * E1 * H1)
    with (0.3989423 * E1 * (w * t * P + (H2 - H1) / 0.2316419))
    by (rewrite <- Hs; field; lra).
  apply Rmult_le_pos; [lra |].
  assert (1 / 4 <= P) by (apply HP; lra).
  assert (0 <= w * t) by nra.
  assert (w * t / 4 <= w * t * P) by nra.
  lra.
Qed.

Lemma bs_F_pos_monotone (w x1 x2 : R) :
  0 <= w -> 0 <= x1 <= x2 -> bs_F_pos w x1 <= bs_F_pos w x2.
Proof.
  intros Hw [H1 H2].
  apply nondecreasing_of_derivative with (f' := bs_F_pos' w); [exact H2 | |].
  - intros c Hc. apply bs_F_pos_deriv; lra.
  - intros c Hc. apply bs_F_pos'_nonneg; lra.
Qed.

Lemma bs_F_mid_monotone (w x1 x2 : R) :
  - w <= x1 -> x1 <= x2 -> x2 <= 0 -> bs_F_mid w x1 <= bs_F_mid w x2.
Proof.
  intros H1 H2 H3.
  apply nondecreasing_of_derivative with (f' := bs_F_mid' w); [exact H2 | |].
  - intros c Hc. apply bs_F_mid_deriv; lra.
  - intros c Hc. apply bs_F_mid'_nonneg; lra.
Qed.

Lemma bs_F_neg_monotone (w x1 x2 : R) :
  0 <= w -> x1 <= x2 -> x2 <= - w -> bs_F_neg w x1 <= bs_F_neg w x2.
Proof.
  intros Hw H1 H2.
  apply nondecreasing_of_derivative with (f' := bs_F_neg' w); [exact H1 | |].
  - intros c Hc. apply bs_F_neg_deriv; lra.
  - intros c Hc. apply bs_F_neg'_nonneg; lra.
Qed.

Lemma bs_F_on_pos (w x : R) : 0 < w -> 0 < x -> bs_F w x = bs_F_pos w x.
Proof.
  intros Hw Hx. unfold bs_F, bs_F_pos.
  rewrite !normCDF_R_pos by lra. rewrite !cdf_tail_g_pos by lra. reflexivity.
Qed.

Lemma bs_F_on_mid (w x : R) : - w < x <= 0 -> bs_F w x = bs_F_mid w x.
Proof.
  intros Hx. unfold bs_F, bs_F_mid.
  rewrite normCDF_R_pos by lra. rewrite normCDF_R_nonpos by lra.
  rewrite cdf_tail_g_pos by lra. rewrite cdf_tail_g_neg by lra. reflexivity.
Qed.

Lemma bs_F_on_neg (w x : R) : x <= - w -> 0 <= w -> bs_F w x = bs_F_neg w x.
Proof.
  intros Hx Hw. unfold bs_F, bs_F_neg.
  rewrite !normCDF_R_nonpos by lra. rewrite !cdf_tail_g_neg by lra. reflexivity.
Qed.

Lemma cdf_g_0 : cdf_g 0 = 0.3989423 * 1.2533137.
Proof. rewrite <- cdf_tail_g_pos by lra. apply cdf_tail_0. Qed.

Lemma cdf_jump_bounds : 0 < cdf_jump <= 3e-7.
Proof. unfold cdf_jump. lra. Qed.

(** At 0 the two pieces differ by the jump of [normCDF]; at [- w] the
    jump of [normCDF (x + w)] goes upward. *)
Lemma bs_F_pos_mid_0 (w : R) : bs_F_pos w 0 = bs_F_mid w 0 - cdf_jump.
Proof.
  unfold bs_F_pos, bs_F_mid, cdf_jump.
  replace (- 0) with 0 by lra. rewrite cdf_g_0. lra.
Qed.

Lemma bs_F_neg_mid_w (w : R) : bs_F_neg w (- w) <= bs_F_mid w (- w).
Proof.
  unfold bs_F_neg, bs_F_mid.
  replace (- w + w) with 0 by lra. replace (- 0) with 0 by lra. rewrite cdf_g_0.
  pose proof (exp_pos (w * - w + w * w / 2)). nra.
Qed.

(** [bs_F w] is non-decreasing up to the jump of [normCDF] at 0. *)
Lemma bs_F_almost_monotone (w x1 x2 : R) :
  0 < w -> x1 <= x2 -> bs_F w x1 - cdf_jump <= bs_F w x2.
Proof.
  intros Hw H12.
  pose proof cdf_jump_bounds as [HJ _].
  assert (Hw0 : 0 <= w) by lra.
  destruct (Rle_dec x1 (- w)) as [A1 | A1]; [| apply Rnot_le_lt in A1];
    [| destruct (Rle_dec x1 0) as [B1 | B1]; [| apply Rnot_le_lt in B1]].
  - (* x1 <= -w *)
    rewrite (bs_F_on_neg w x1) by lra.
    destruct (Rle_dec x2 (- w)) as [A2 | A2]; [| apply Rnot_le_lt in A2];
      [| destruct (Rle_dec x2 0) as [B2 | B2]; [| apply Rnot_le_lt in B2]].
    + rewrite (bs_F_on_neg w x2) by lra.
      pose proof (bs_F_neg_monotone w x1 x2 Hw0 H12 A2). lra.
    + rewrite (bs_F_on_mid w x2) by lra.
      pose proof (bs_F_neg_monotone w x1 (- w) Hw0 A1 (Rle_refl _)).
      pose proof (bs_F_neg_mid_w w).
      assert (bs_F_mid w (- w) <= bs_F_mid w x2) by (apply bs_F_mid_monotone; lra).
      lra.
    + rewrite (bs_F_on_pos w x2) by lra.
      pose proof (bs_F_neg_monotone w x1 (- w) Hw0 A1 (Rle_refl _)).
      pose proof (bs_F_neg_mid_w w).
      assert (bs_F_mid w (- w) <= bs_F_mid w 0) by (apply bs_F_mid_monotone; lra).
      pose proof (bs_F_pos_mid_0 w).
      assert (bs_F_pos w 0 <= bs_F_pos w x2) by (apply bs_F_pos_monotone; lra).
      lra.
  - (* -w < x1 <= 0 *)
    rewrite (bs_F_on_mid w x1) by lra.
    destruct (Rle_dec x2 0) as [B2 | B2]; [| apply Rnot_le_lt in B2].
    + rewrite (bs_F_on_mid w x2) by lra.
      assert (bs_F_mid w x1 <= bs_F_mid w x2) by (apply bs_F_mid_monotone; lra).
      lra.
    + rewrite (bs_F_on_pos w x2) by lra.
      assert (bs_F_mid w x1 <= bs_F_mid w 0) by (apply bs_F_mid_monotone; lra).
      pose proof (bs_F_pos_mid_0 w).
      assert (bs_F_pos w 0 <= bs_F_pos w x2) by (apply bs_F_pos_monotone; lra).
      lra.
  - (* 0 < x1 *)
    rewrite (bs_F_on_pos w x1), (bs_F_on_pos w x2) by lra.
    assert (bs_F_pos w x1 <= bs_F_pos w x2) by (apply bs_F_pos_monotone; lra).
    lra.
Qed.

Lemma premium_R_bs_F (S K T r sigma : R) :
  0 < S -> 0 < K -> 0 < T -> 0 < sigma ->
  premium_R S K T r sigma
  = K * exp ((- r) * T) * bs_F (sigma * sqrt T) (d2_R S K T r sigma).
Proof.
  intros HS HK HT Hs.
  pose proof (vol_sqrt_pos T sigma HT Hs) as Hv.
  assert (Hsq : sqrt T * sqrt T = T) by (apply sqrt_sqrt; lra).
  unfold premium_R, bs_F.
  replace (d2_R S K T r sigma + sigma * sqrt T) with (d1_R S K T r sigma)
    by (unfold d2_R; ring).
  assert (Hexp : sigma * sqrt T * d2_R S K T r sigma + sigma * sqrt T * (sigma * sqrt T) / 2
                 = ln (S / K) + r * T).
  { unfold d2_R, d1_R.
    set (w := sigma * sqrt T) in *.
    assert (Hw2 : w * w = sigma * sigma * T) by (unfold w; nra).
    set (L := ln (S / K)).
    replace (w * ((L + (r + 0.5 * (sigma * sigma)) * T) / w - w) + w * w / 2)
      with (L + (r + 0.5 * (sigma * sigma)) * T - w * w / 2) by (field; lra).
    rewrite Hw2. lra. }
  rewrite Hexp.
  assert (HS' : S = K * exp (- r * T) * exp (ln (S / K) + r * T)).
  { rewrite Rmult_assoc, <- exp_plus.
    replace (- r * T + (ln (S / K) + r * T)) with (ln (S / K)) by ring.
    rewrite exp_ln by (now apply Rdiv_lt_0_compat).
    field. lra. }
  set (N1 := normCDF_R (d1_R S K T r sigma)).
  set (N2 := normCDF_R (d2_R S K T r sigma)).
  set (X := exp (ln (S / K) + r * T)) in *.
  set (D := exp (- r * T)) in *.
  rewrite HS' at 1. ring.
Qed.

(** For all positive reals: the premium is non-decreasing in [S] up to
    the jump of [normCDF] at 0, scaled by [K * discountFactor]. *)
Lemma premium_R_almost_monotone (S1 S2 K T r sigma : R) :
  0 < K -> 0 < T -> 0 < sigma -> 0 < S1 -> S1 <= S2 ->
  premium_R S1 K T r sigma - cdf_jump * (K * exp ((- r) * T))
  <= premium_R S2 K T r sigma.
Proof.
  intros HK HT Hs H1 H12.
  rewrite !premium_R_bs_F by lra.
  pose proof (vol_sqrt_pos T sigma HT Hs) as Hv.
  pose proof (d2_R_monotone S1 S2 K T r sigma HK HT Hs H1 H12) as Hd.
  pose proof (bs_F_almost_monotone _ _ _ Hv Hd) as HF.
  pose proof (exp_pos (- r * T)) as He.
  assert (HKe : 0 < K * exp (- r * T)) by (apply Rmult_lt_0_compat; lra).
  nra.
Qed.

(** C7 (amended).  Holding [K], [T], [r], [sigma] fixed within the ranges
    of the sliders, as [S] increases from 1 to 5000 the premium returned
    by [blackScholesCall] is non-decreasing up to the jump of [normCDF] at
    0: for [S1 <= S2], [premium(S2) >= premium(S1) - 3e-7 * K * discountFactor]
    (the [discountFactor] does not depend on [S]). *)
Theorem C7_premium_almost_monotone :
  both_copies (fun bs =>
    forall S1 S2 K T r sigma : R,
      slider_price S1 -> slider_price S2 -> S1 <= S2 ->
      slider_price K -> slider_params T r sigma ->
      exists o1 o2 : PricingResult,
        bs (Fin S1) (Fin K) (Fin T) (Fin r) (Fin sigma) = JObj o1 /\
        bs (Fin S2) (Fin K) (Fin T) (Fin r) (Fin sigma) = JObj o2 /\
        discountFactor o2 = discountFactor o1 /\
        jle (premium o1 - 3e-7 * (Fin K * discountFactor o1))%js (premium o2) = true).
Proof.
  split; intros S1 S2 K T r sigma HS1 HS2 H12 HK HP;
    destruct (slider_positive S1 K T r sigma HS1 HK HP) as (H1 & HK0 & HT & Hr & Hs);
    assert (H2 : 0 < S2) by lra;
    do 2 eexists;
    (split; [first [apply (Default_finite S1 K T r sigma H1 HK0 HT Hs)
                   | apply (Reverse_finite S1 K T r sigma H1 HK0 HT Hs)] |]);
    (split; [first [apply (Default_finite S2 K T r sigma H2 HK0 HT Hs)
                   | apply (Reverse_finite S2 K T r sigma H2 HK0 HT Hs)] |]);
    cbn [premium discountFactor jmul jsub jadd jneg jle];
    (split; [reflexivity |]);
    apply R_leb_true;
    pose proof (premium_R_almost_monotone S1 S2 K T r sigma HK0 HT Hs H1 H12) as Hm;
    pose proof cdf_jump_bounds as [_ HJ];
    pose proof (exp_pos (- r * T)) as He;
    assert (HKe : 0 < K * exp (- r * T)) by (apply Rmult_lt_0_compat; lra);
    nra.
Qed.

Lemma C7_witness :
  exists o1 o2 : PricingResult,
    Default.blackScholesCall 2500 2400 1 0.05 0.2 = JObj o1 /\
    Default.blackScholesCall 2600 2400 1 0.05 0.2 = JObj o2 /\
    jle (premium o1 - 3e-7 * (Fin 2400 * discountFactor o1))%js (premium o2) = true.
Proof.
  destruct (proj1 C7_premium_almost_monotone 2500 2600 2400 1 0.05 0.2)
    as [o1 [o2 [Ha [Hb [_ Hc]]]]];
    unfold slider_price, slider_params; try lra.
  exists o1, o2. split; [exact Ha |]. split; [exact Hb | exact Hc].
Defined.

(** ** The sensitivity sweep *)

Section Sweep.

Variable inputs : Reverse.Inputs.
Variable sensitivityType : Reverse.Field.
Variable range : Reverse.Range.
Variable stepSize : jsnum.
Variable steps : nat.

(** The loop pushes the points of the counters [i], [i + 1], ..., [steps],
    in this order, as soon as it has fuel for them. *)
Lemma sweep_loop_spec (fuel i : nat) (data : list Reverse.Point) :
  (steps + 1 - i <= fuel)%nat ->
  Reverse.sweep_loop fuel inputs sensitivityType range stepSize steps i data
  = data ++ map (Reverse.sweep_point inputs sensitivityType range stepSize)
              (seq i (steps + 1 - i)).
Proof.
  revert i data. induction fuel as [| fuel IH]; intros i data Hfuel.
  - replace (steps + 1 - i)%nat with 0%nat by lia. cbn. now rewrite app_nil_r.
  - cbn [Reverse.sweep_loop].
    destruct (Nat.leb_spec i steps) as [Hle | Hgt].
    + rewrite IH by lia.
      replace (steps + 1 - i)%nat with (Datatypes.S (steps + 1 - (i + 1))) by lia.
      cbn [seq map]. rewrite <- app_assoc. cbn [app].
      now replace (Datatypes.S i) with (i + 1)%nat by lia.
    + replace (steps + 1 - i)%nat with 0%nat by lia. cbn. now rewrite app_nil_r.
Qed.

(** More fuel than [steps + 1] changes nothing: the loop has stopped. *)
Lemma sweep_loop_fuel (fuel : nat) :
  (steps + 1 <= fuel)%nat ->
  Reverse.sweep_loop fuel inputs sensitivityType range stepSize steps 0 []
  = map (Reverse.sweep_point inputs sensitivityType range stepSize)
        (seq 0 (steps + 1)).
Proof.
  intros H. rewrite sweep_loop_spec by lia. cbn [app]. now rewrite Nat.sub_0_r.
Qed.

End Sweep.

Lemma sweep_eq (inputs : Reverse.Inputs) (ty : Reverse.Field)
    (range : Reverse.Range) (steps : nat) :
  Reverse.sweep inputs ty range steps
  = map (Reverse.sweep_point inputs ty range
           ((Reverse.rng_max range - Reverse.rng_min range) / INR steps)%js)
        (seq 0 (steps + 1)).
Proof. unfold Reverse.sweep. cbv zeta. now apply sweep_loop_fuel. Qed.

Lemma nth_map_seq (A : Type) (f : nat -> A) (d : A) (n start i : nat) :
  (i < n)%nat -> nth i (map f (seq start n)) d = f (start + i)%nat.
Proof.
  revert start i. induction n as [| n IH]; intros start i Hi; [lia |].
  destruct i as [| i]; cbn.
  - now rewrite Nat.add_0_r.
  - rewrite IH by lia. f_equal. lia.
Qed.

Lemma set_field_get (inputs : Reverse.Inputs) (ty f : Reverse.Field) (v : jsnum) :
  Reverse.get_field (Reverse.set_field inputs ty v) f
  = if Field_eqb f ty then v else Reverse.get_field inputs f.
Proof. destruct ty, f; reflexivity. Qed.

Lemma sweep_point_finite (inputs : Reverse.Inputs) (ty : Reverse.Field)
    (a b : R) (lbl : string) (steps i : nat) :
  (1 <= steps)%nat ->
  Reverse.sweep_point inputs ty
    {| Reverse.rng_min := Fin a; Reverse.rng_max := Fin b; Reverse.rng_label := lbl |}
    ((Fin b - Fin a) / INR steps)%js i
  = let value := Fin (a + INR i * ((b - a) / INR steps)) in
    let testInputs := Reverse.set_field inputs ty value in
    {| Reverse.pt_x := value;
       Reverse.pt_premium :=
         get_prop premium
           (Reverse.blackScholesCall (Reverse.in_S testInputs) (Reverse.in_K testInputs)
              (Reverse.in_T testInputs) (Reverse.in_r testInputs)
              (Reverse.in_sigma testInputs));
       Reverse.pt_label := lbl |}.
Proof.
  intros Hsteps.
  assert (Hn : INR steps <> 0) by (apply not_0_INR; lia).
  unfold Reverse.sweep_point. cbn [Reverse.rng_min Reverse.rng_label jsub jneg jadd].
  rewrite (jdiv_Fin _ (INR steps) Hn). cbn [jmul jadd]. reflexivity.
Qed.

Lemma INR_50 : INR 50 = 50.
Proof. rewrite INR_IZR_INZ. reflexivity. Qed.

(** The array of [generateSensitivityData], point by point. *)
Lemma generateSensitivityData_eq (inputs : Reverse.Inputs) (ty : Reverse.Field) :
  Reverse.generateSensitivityData inputs ty
  = map (fun i : nat =>
           let range := Reverse.ranges inputs ty in
           let value := (Reverse.rng_min range
                         + INR i * ((Reverse.rng_max range - Reverse.rng_min range) / 50))%js in
           let testInputs := Reverse.set_field inputs ty value in
           {| Reverse.pt_x := value;
              Reverse.pt_premium :=
                get_prop premium
                  (Reverse.blackScholesCall
                     (Reverse.in_S testInputs) (Reverse.in_K testInputs)
                     (Reverse.in_T testInputs) (Reverse.in_r testInputs)
                     (Reverse.in_sigma testInputs));
              Reverse.pt_label := Reverse.rng_label range |})
        (seq 0 51).
Proof.
  unfold Reverse.generateSensitivityData. cbv zeta. rewrite sweep_eq.
  cbn [Nat.add]. apply map_ext. intros i.
  unfold Reverse.sweep_point. cbv zeta. rewrite INR_50. reflexivity.
Qed.

(** The bounds of a sweep whose base value is within the sliders. *)
Lemma sweep_base_range (inputs : Reverse.Inputs) (ty : Reverse.Field) :
  sweep_base inputs ty ->
  exists a b : R,
    Reverse.rng_min (Reverse.ranges inputs ty) = Fin a /\
    Reverse.rng_max (Reverse.ranges inputs ty) = Fin b /\
    0 < a < b.
Proof.
  destruct ty; cbn [sweep_base Reverse.ranges Reverse.rng_min Reverse.rng_max].
  - intros [s [-> Hs]]. exists (s * 0.7), (s * 1.3). unfold slider_price in Hs.
    repeat split; lra.
  - intros [k [-> Hk]]. exists (k * 0.7), (k * 1.3). unfold slider_price in Hk.
    repeat split; lra.
  - intros _. exists 0.1, 2. repeat split; lra.
  - intros _. exists 0.01, 0.15. repeat split; lra.
  - intros _. exists 0.05, 0.6. repeat split; lra.
Qed.

(** C6.  [generateSensitivityData] sweeps the field [sensitivityType]
    between the bounds [min] and [max] that [ranges] gives for it, in 50
    steps of size [(max - min) / 50]: it returns the 51 points of the
    counters 0 to 50, in this order.  The point of [i] has
    [x = min + i * stepSize]; its premium is the [premium] read on the
    result of one call of [blackScholesCall] on the inputs in which [x]
    has replaced the swept field, the other four being unchanged; its
    label is the label of the range.  When the base value of a sweep of
    [S] or [K] is within the range of the sliders (the sweeps of [T], [r]
    and [sigma] have fixed bounds), [min < max], the first [x] is [min],
    the last is [max] up to rounding, and the [x] are in ascending order,
    strictly increasing. *)
Theorem C6_sweep_points (inputs : Reverse.Inputs) (sensitivityType : Reverse.Field) :
  let range := Reverse.ranges inputs sensitivityType in
  let stepSize := ((Reverse.rng_max range - Reverse.rng_min range) / 50)%js in
  let value := fun i : nat => (Reverse.rng_min range + INR i * stepSize)%js in
  let data := Reverse.generateSensitivityData inputs sensitivityType in
  data = map (fun i : nat =>
                let testInputs := Reverse.set_field inputs sensitivityType (value i) in
                {| Reverse.pt_x := value i;
                   Reverse.pt_premium :=
                     get_prop premium
                       (Reverse.blackScholesCall
                          (Reverse.in_S testInputs) (Reverse.in_K testInputs)
                          (Reverse.in_T testInputs) (Reverse.in_r testInputs)
                          (Reverse.in_sigma testInputs));
                   Reverse.pt_label := Reverse.rng_label range |})
             (seq 0 51) /\
  List.length data = 51%nat /\
  (forall (v : jsnum) (f : Reverse.Field),
     Reverse.get_field (Reverse.set_field inputs sensitivityType v) f
     = if Field_eqb f sensitivityType then v else Reverse.get_field inputs f) /\
  (Reverse.rng_min range, Reverse.rng_max range)
  = match sensitivityType with
    | Reverse.F_S => (Reverse.in_S inputs * 0.7, Reverse.in_S inputs * 1.3)%js
    | Reverse.F_K => (Reverse.in_K inputs * 0.7, Reverse.in_K inputs * 1.3)%js
    | Reverse.F_T => (Fin 0.1, Fin 2)
    | Reverse.F_r => (Fin 0.01, Fin 0.15)
    | Reverse.F_sigma => (Fin 0.05, Fin 0.6)
    end /\
  (sweep_base inputs sensitivityType ->
     exists a b : R,
       Reverse.rng_min range = Fin a /\ Reverse.rng_max range = Fin b /\ a < b /\
       nth 0 (map Reverse.pt_x data) NaN = Fin a /\
       (exists z : R,
          nth 50 (map Reverse.pt_x data) NaN = Fin z /\ Rabs (z - b) <= 1e-9 * b) /\
       ascending (map Reverse.pt_x data) /\
       strictly_increasing (map Reverse.pt_x data)).
Proof.
  intros range stepSize value data.
  assert (Hdata : data = map (fun i : nat =>
                let testInputs := Reverse.set_field inputs sensitivityType (value i) in
                {| Reverse.pt_x := value i;
                   Reverse.pt_premium :=
                     get_prop premium
                       (Reverse.blackScholesCall
                          (Reverse.in_S testInputs) (Reverse.in_K testInputs)
                          (Reverse.in_T testInputs) (Reverse.in_r testInputs)
                          (Reverse.in_sigma testInputs));
                   Reverse.pt_label := Reverse.rng_label range |})
             (seq 0 51)).
  { subst data. apply generateSensitivityData_eq. }
  split; [exact Hdata |].
  split; [rewrite Hdata; now rewrite length_map, length_seq |].
  split; [intros v f; apply set_field_get |].
  split; [subst range; destruct sensitivityType; reflexivity |].
  intros Hbase.
  destruct (sweep_base_range inputs sensitivityType Hbase) as [a [b [Ea [Eb Hab]]]].
  fold range in Ea, Eb.
  exists a, b.
  assert (Hxs : map Reverse.pt_x data
                = map (fun i : nat => Fin (a + INR i * ((b - a) / 50))) (seq 0 51)).
  { rewrite Hdata, map_map. apply map_ext. intros i. cbv zeta.
    cbn [Reverse.pt_x]. subst value stepSize. cbv beta. rewrite Ea, Eb.
    cbn [jsub jneg jadd]. rewrite jdiv_Fin by lra. reflexivity. }
  rewrite Hxs.
  split; [exact Ea |]. split; [exact Eb |]. split; [lra |].
  split; [rewrite nth_map_seq by lia; f_equal; cbn; lra |].
  split.
  - exists (a + INR 50 * ((b - a) / 50)).
    split; [now rewrite nth_map_seq by lia |].
    rewrite INR_50. apply Rabs_le. lra.
  - assert (Hstep : 0 < (b - a) / 50) by lra.
    split; intros i j; rewrite length_map, length_seq; intros Hij;
      rewrite !nth_map_seq by lia; cbn [jle jgt Nat.add].
    + apply R_leb_true. assert (INR i <= INR j) by (apply le_INR; lia). nra.
    + apply R_ltb_true. assert (INR i < INR j) by (apply lt_INR; lia). nra.
Qed.

Lemma C6_witness :
  strictly_increasing
    (map Reverse.pt_x
       (Reverse.generateSensitivityData
          {| Reverse.in_S := 2500; Reverse.in_K := 2500; Reverse.in_T := 1;
             Reverse.in_r := 0.07; Reverse.in_sigma := 0.25 |} Reverse.F_S)).
Proof.
  destruct (C6_sweep_points
              {| Reverse.in_S := 2500; Reverse.in_K := 2500; Reverse.in_T := 1;
                 Reverse.in_r := 0.07; Reverse.in_sigma := 0.25 |} Reverse.F_S)
    as [_ [_ [_ [_ H]]]].
  destruct H as [a [b [_ [_ [_ [_ [_ [_ Hinc]]]]]]]].
  - exists 2500. split; [reflexivity | unfold slider_price; lra].
  - exact Hinc.
Defined.

(** * Further properties of the code *)

(** ** [normCDF]: symmetry, and the two sides of 0 *)

Lemma cdf_tail_even (x : R) : cdf_tail (- x) = cdf_tail x.
Proof.
  unfold cdf_tail, cdf_t. rewrite Rabs_Ropp.
  replace (- - x * - x / 2) with (- x * x / 2) by lra. reflexivity.
Qed.

(** X1. For every real [x <> 0], [normCDF(-x) + normCDF(x)] is exactly 1;
    at [x = 0] both branches give [prob], and [normCDF(0)] is
    [0.3989423 * 1.2533137], below one half. *)
Theorem X1_normCDF_symmetry :
  (forall x : R, x <> 0 ->
     (Default.normCDF (Fin (- x)) + Default.normCDF (Fin x))%js = Fin 1 /\
     (Reverse.normCDF (Fin (- x)) + Reverse.normCDF (Fin x))%js = Fin 1)
  /\
  (exists y : R,
     Default.normCDF (Fin 0) = Fin y /\ Reverse.normCDF (Fin 0) = Fin y /\
     y = 0.3989423 * 1.2533137 /\ y + y < 1).
Proof.
  split.
  - intros x Hx.
    rewrite ?Reverse_normCDF_Fin, ?Default_normCDF_Fin. cbn [jadd].
    assert (E : normCDF_R (- x) + normCDF_R x = 1).
    { destruct (Rlt_dec 0 x) as [Hpos | Hneg].
      - rewrite (normCDF_R_pos x Hpos), (normCDF_R_nonpos (- x)) by lra.
        rewrite cdf_tail_even. ring.
      - rewrite (normCDF_R_nonpos x), (normCDF_R_pos (- x)) by lra.
        rewrite cdf_tail_even. ring. }
    rewrite E. split; reflexivity.
  - exists (normCDF_R 0).
    rewrite ?Reverse_normCDF_Fin, ?Default_normCDF_Fin.
    rewrite (normCDF_R_nonpos 0) by lra. rewrite cdf_tail_0.
    repeat split. lra.
Qed.

Lemma X1_witness :
  (Default.normCDF (Fin (- 2)) + Default.normCDF (Fin 2))%js = Fin 1.
Proof.
  destruct X1_normCDF_symmetry as [H _].
  apply (H 2). lra.
Defined.

(** X2. [normCDF] is below one half on [x <= 0] and above one half on
    [x > 0], within [[0, 1]]: it increases strictly across 0.  On inputs
    within the ranges of the sliders [d2 < d1] strictly. *)
Theorem X2_normCDF_across_zero :
  (forall x y : R, x <= 0 -> 0 < y ->
     exists u v : R,
       Default.normCDF (Fin x) = Fin u /\ Reverse.normCDF (Fin x) = Fin u /\
       Default.normCDF (Fin y) = Fin v /\ Reverse.normCDF (Fin y) = Fin v /\
       0 <= u < 1 / 2 /\ 1 / 2 < v <= 1)
  /\
  both_copies (fun bs =>
    forall S K T r sigma : R,
      slider_price S -> slider_price K -> slider_params T r sigma ->
      exists o : PricingResult,
        bs (Fin S) (Fin K) (Fin T) (Fin r) (Fin sigma) = JObj o /\
        jgt (d1 o) (d2 o) = true).
Proof.
  split.
  - intros x y Hx Hy.
    exists (normCDF_R x), (normCDF_R y).
    rewrite ?Reverse_normCDF_Fin, ?Default_normCDF_Fin.
    do 4 (split; [reflexivity |]).
    rewrite (normCDF_R_nonpos x Hx), (normCDF_R_pos y Hy).
    pose proof (cdf_tail_pos x). pose proof (cdf_tail_lt_half x).
    pose proof (cdf_tail_pos y). pose proof (cdf_tail_lt_half y).
    lra.
  - split; intros S K T r sigma HS HK HP;
      destruct (slider_positive S K T r sigma HS HK HP) as (H1 & H2 & H3 & H4 & H5);
      pose proof (vol_sqrt_pos T sigma H3 H5) as Hv;
      eexists;
      (split; [first [apply (Default_finite S K T r sigma H1 H2 H3 H5)
                     | apply (Reverse_finite S K T r sigma H1 H2 H3 H5)] |]);
      cbn [d1 d2 jgt]; apply R_ltb_true; unfold d2_R; lra.
Qed.

Lemma X2_witness :
  exists u v : R,
    Default.normCDF (Fin 0) = Fin u /\ Default.normCDF (Fin 1) = Fin v /\ u < v.
Proof.
  destruct (proj1 X2_normCDF_across_zero 0 1) as [u [v [Hu [_ [Hv [_ [Hb1 Hb2]]]]]]];
    try lra.
  exists u, v. split; [exact Hu |]. split; [exact Hv | lra].
Defined.

(** ** NaN among the inputs *)

Lemma jadd_NaN_r (a : jsnum) : (a + NaN)%js = NaN.
Proof. destruct a; reflexivity. Qed.

Lemma jmul_NaN_r (a : jsnum) : (a * NaN)%js = NaN.
Proof. destruct a; reflexivity. Qed.

Lemma jdiv_NaN_r (a : jsnum) : (a / NaN)%js = NaN.
Proof. destruct a; reflexivity. Qed.

Lemma nan_d1 (S K T r sigma : jsnum) :
  is_nan S || is_nan K || is_nan T || is_nan r || is_nan sigma = true ->
  ((Math_log (S / K) + (r + 0.5 * (sigma * sigma)) * T) / (sigma * Math_sqrt T))%js = NaN.
Proof.
  intros H.
  destruct S as [s| | |]; try (cbn in H |- *; reflexivity);
  (destruct K as [k| | |];
   [| | | rewrite jdiv_NaN_r; reflexivity]);
  (destruct T as [t| | |];
   [| | | cbn [Math_sqrt]; rewrite !jmul_NaN_r, jadd_NaN_r; reflexivity]);
  (destruct sigma as [v| | |];
   [| | | cbn [jmul]; rewrite jadd_NaN_r; cbn [jmul]; rewrite jadd_NaN_r; reflexivity]);
  (destruct r as [r| | |];
   [discriminate H | discriminate H | discriminate H
   | cbn [jadd jmul]; rewrite jadd_NaN_r; reflexivity]).
Qed.

(** X3. A NaN among the five inputs is not caught by the guard
    [T <= 0 || sigma <= 0] (a comparison with NaN is false): unless the
    guard fires on the other of [T], [sigma], [blackScholesCall] returns
    the object, with [premium], [d1], [d2], [Nd1] and [Nd2] all NaN. *)
Theorem X3_nan_input (S K T r sigma : jsnum) :
  is_nan S || is_nan K || is_nan T || is_nan r || is_nan sigma = true ->
  jle T 0 || jle sigma 0 = false ->
  exists o : PricingResult,
    Default.blackScholesCall S K T r sigma = JObj o /\
    Reverse.blackScholesCall S K T r sigma = JObj o /\
    premium o = NaN /\ d1 o = NaN /\ d2 o = NaN /\ Nd1 o = NaN /\ Nd2 o = NaN.
Proof.
  intros Hnan Hg.
  exists (normal_record Default.normCDF S K T r sigma).
  rewrite (Default_normal_path _ _ _ _ _ Hg), (Reverse_normal_path _ _ _ _ _ Hg).
  do 2 (split; [reflexivity |]).
  unfold normal_record. cbv zeta. cbn [premium d1 d2 Nd1 Nd2].
  rewrite (nan_d1 S K T r sigma Hnan).
  cbn [jsub jadd]. rewrite normCDF_NaN, jmul_NaN_r. cbn [jsub jadd].
  repeat split.
Qed.

Lemma X3_witness :
  exists o : PricingResult,
    Default.blackScholesCall 2500 2400 NaN 0.05 0.2 = JObj o /\ premium o = NaN.
Proof.
  destruct (X3_nan_input 2500 2400 NaN 0.05 0.2) as [o [Hd [_ [Hp _]]]].
  - reflexivity.
  - cbn. now rewrite (R_leb_false 0.2 0) by lra.
  - exists o. split; [exact Hd | exact Hp].
Defined.

(** ** Bounds on the fields *)


(** X4. On inputs within the ranges of the sliders: [Nd1] and [Nd2] are
    between 0 and 1, [discountFactor] is positive and at most 1, the
    premium is [S * Nd1 - K * discountFactor * Nd2] and lies between
    [- K * discountFactor] and [S]. *)
Theorem X4_field_bounds :
  both_copies (fun bs =>
    forall S K T r sigma : R,
      slider_price S -> slider_price K -> slider_params T r sigma ->
      exists (o : PricingResult) (p n1 n2 df : R),
        bs (Fin S) (Fin K) (Fin T) (Fin r) (Fin sigma) = JObj o /\
        premium o = Fin p /\ Nd1 o = Fin n1 /\ Nd2 o = Fin n2 /\
        discountFactor o = Fin df /\
        0 <= n1 <= 1 /\ 0 <= n2 <= 1 /\
        0 < df <= 1 /\
        premium o = (Fin S * Nd1 o - Fin K * discountFactor o * Nd2 o)%js /\
        - (K * df) <= p <= S).
Proof.
  split; intros S K T r sigma HS HK HP;
    destruct (slider_positive S K T r sigma HS HK HP) as (H1 & H2 & H3 & H4 & H5);
    eexists;
    exists (premium_R S K T r sigma), (normCDF_R (d1_R S K T r sigma)),
      (normCDF_R (d2_R S K T r sigma)), (exp (- r * T));
    (split; [first [apply (Default_finite S K T r sigma H1 H2 H3 H5)
                   | apply (Reverse_finite S K T r sigma H1 H2 H3 H5)] |]);
    cbn [premium Nd1 Nd2 discountFactor jmul jsub jadd jneg];
    do 4 (split; [reflexivity |]);
    pose proof (normCDF_R_range (d1_R S K T r sigma)) as Hn1;
    pose proof (normCDF_R_range (d2_R S K T r sigma)) as Hn2;
    pose proof (exp_pos (- r * T)) as He;
    assert (Hdf : exp (- r * T) <= 1)
      by (rewrite <- exp_0; destruct (Req_dec (r * T) 0) as [E | N];
          [right; f_equal; lra | left; apply exp_increasing; nra]);
    assert (HKdf : 0 < K * exp (- r * T)) by (now apply Rmult_lt_0_compat);
    (split; [lra |]); (split; [lra |]); (split; [lra |]);
    (split; [unfold premium_R; f_equal; ring |]);
    unfold premium_R; split; nra.
Qed.

Lemma X4_witness :
  exists (o : PricingResult) (p : R),
    Default.blackScholesCall 2500 2400 1 0.05 0.2 = JObj o /\
    premium o = Fin p /\ p <= 2500.
Proof.
  destruct (proj1 X4_field_bounds 2500 2400 1 0.05 0.2)
    as [o [p [n1 [n2 [df [Hd [Hp [_ [_ [_ [_ [_ [_ [_ Hb]]]]]]]]]]]]]];
    unfold slider_price, slider_params; try lra.
  exists o, p. split; [exact Hd |]. split; [exact Hp | lra].
Defined.

(** ** At the money, in the money *)

Lemma d1_R_at_the_money (S T sigma : R) :
  0 < S -> 0 < T -> 0 < sigma ->
  d1_R S S T 0 sigma = sigma * sqrt T / 2 /\
  d2_R S S T 0 sigma = - (sigma * sqrt T / 2).
Proof.
  intros HS HT Hs.
  pose proof (sqrt_lt_R0 T HT) as Hq.
  pose proof (sqrt_sqrt T (Rlt_le _ _ HT)) as Hsq.
  assert (E : d1_R S S T 0 sigma = sigma * sqrt T / 2).
  { unfold d1_R. replace (S / S) with 1 by (field; lra). rewrite ln_1.
    set (q := sqrt T) in *.
    assert (Hnum : 0 + (0 + 0.5 * (sigma * sigma)) * T
                   = sigma * q / 2 * (sigma * q)) by (rewrite <- Hsq; lra).
    rewrite Hnum. unfold Rdiv at 1.
    rewrite Rmult_assoc, Rinv_r by nra. ring. }
  split; [exact E |]. unfold d2_R. rewrite E. lra.
Qed.


(** X5. At the money with a zero rate ([S = K], [r = 0]), within the
    ranges of the sliders: [d1 > 0 > d2] with [d1 + d2 = 0] up to
    rounding, [Nd1 > 1/2 > Nd2] with [Nd1 + Nd2 = 1] up to rounding,
    [discountFactor] is 1 and the premium is positive. *)
Theorem X5_at_the_money_zero_rate :
  both_copies (fun bs =>
    forall S T sigma : R,
      slider_price S -> slider_params T 0 sigma ->
      exists (o : PricingResult) (a b n1 n2 p : R),
        bs (Fin S) (Fin S) (Fin T) (Fin 0) (Fin sigma) = JObj o /\
        d1 o = Fin a /\ d2 o = Fin b /\ Nd1 o = Fin n1 /\ Nd2 o = Fin n2 /\
        premium o = Fin p /\
        discountFactor o = Fin 1 /\
        b < 0 < a /\ Rabs (a + b) <= 1e-9 /\
        n2 < 1 / 2 < n1 /\ Rabs (n1 + n2 - 1) <= 1e-9 /\
        0 < p).
Proof.
  split; intros S T sigma HS HP;
    destruct (slider_positive S S T 0 sigma HS HS HP) as (H1 & _ & H3 & _ & H5);
    pose proof (vol_sqrt_pos T sigma H3 H5) as Hv;
    destruct (d1_R_at_the_money S T sigma H1 H3 H5) as [E1 E2];
    eexists;
    exists (d1_R S S T 0 sigma), (d2_R S S T 0 sigma),
      (normCDF_R (d1_R S S T 0 sigma)), (normCDF_R (d2_R S S T 0 sigma)),
      (premium_R S S T 0 sigma);
    (split; [first [apply (Default_finite S S T 0 sigma H1 H1 H3 H5)
                   | apply (Reverse_finite S S T 0 sigma H1 H1 H3 H5)] |]);
    cbn [premium d1 d2 Nd1 Nd2 discountFactor];
    do 5 (split; [reflexivity |]);
    (split; [f_equal; replace (- 0 * T) with 0 by ring; apply exp_0 |]);
    unfold premium_R; rewrite E1, E2;
    rewrite (normCDF_R_pos (sigma * sqrt T / 2)) by lra;
    rewrite (normCDF_R_nonpos (- (sigma * sqrt T / 2))) by lra;
    rewrite cdf_tail_even;
    pose proof (cdf_tail_lt_half (sigma * sqrt T / 2)) as Hh;
    pose proof (cdf_tail_pos (sigma * sqrt T / 2)) as Hp;
    replace (- 0 * T) with 0 by ring; rewrite exp_0;
    (split; [lra |]);
    (split; [apply Rabs_le; lra |]);
    (split; [lra |]);
    (split; [apply Rabs_le; lra |]);
    nra.
Qed.

Lemma X5_witness :
  exists (o : PricingResult) (p : R),
    Default.blackScholesCall 2500 2500 1 0 0.25 = JObj o /\
    premium o = Fin p /\ 0 < p.
Proof.
  destruct (proj1 X5_at_the_money_zero_rate 2500 1 0.25)
    as [o [a [b [n1 [n2 [p [Hd [_ [_ [_ [_ [Hp [_ [_ [_ [_ [_ Hpos]]]]]]]]]]]]]]]]];
    unfold slider_price, slider_params; try lra.
  exists o, p. split; [exact Hd |]. split; [exact Hp | exact Hpos].
Defined.


(** X6. The moneyness label is ITM exactly when [S > K], OTM exactly when
    [S < K] and ATM otherwise, a NaN [S] or [K] included.  When the label
    is not OTM ([S >= K]) on inputs within the ranges of the sliders,
    [d1] is positive and [Nd1] is above one half. *)
Theorem X6_moneyness :
  (forall inputs : Reverse.Inputs,
     (Calculator.moneyness inputs = Calculator.ITM <->
        jgt (Reverse.in_S inputs) (Reverse.in_K inputs) = true) /\
     (Calculator.moneyness inputs = Calculator.OTM <->
        jgt (Reverse.in_K inputs) (Reverse.in_S inputs) = true) /\
     (is_nan (Reverse.in_S inputs) || is_nan (Reverse.in_K inputs) = true ->
        Calculator.moneyness inputs = Calculator.ATM))
  /\
  (forall S K T r sigma : R,
     slider_price S -> slider_price K -> K <= S -> slider_params T r sigma ->
     Calculator.moneyness
       {| Reverse.in_S := Fin S; Reverse.in_K := Fin K; Reverse.in_T := Fin T;
          Reverse.in_r := Fin r; Reverse.in_sigma := Fin sigma |} <> Calculator.OTM /\
     exists o : PricingResult,
       Reverse.blackScholesCall (Fin S) (Fin K) (Fin T) (Fin r) (Fin sigma) = JObj o /\
       jgt (d1 o) 0 = true /\
       jgt (Nd1 o) 0.5 = true).
Proof.
  split.
  - intros [S K T r sigma]. unfold Calculator.moneyness.
    cbn [Reverse.in_S Reverse.in_K].
    assert (Hexcl : jgt S K = true -> jgt K S = true -> False).
    { destruct S as [s| | |], K as [k| | |]; cbn; try discriminate.
      unfold R_ltb. destruct (Rlt_dec k s), (Rlt_dec s k); try discriminate. lra. }
    split; [| split].
    + destruct (jgt S K); [tauto |]. destruct (jgt K S); split; discriminate.
    + destruct (jgt S K) eqn:E1, (jgt K S) eqn:E2; split; try discriminate; tauto.
    + intros Hnan.
      destruct S as [s| | |], K as [k| | |]; try discriminate; reflexivity.
  - intros S K T r sigma HS0 HK0 HKS HP.
    destruct (slider_positive S K T r sigma HS0 HK0 HP) as (HS & HK & HT & Hr & Hs).
    split.
    + unfold Calculator.moneyness. cbn [Reverse.in_S Reverse.in_K jgt].
      destruct (R_ltb K S); [discriminate |].
      rewrite (R_ltb_false S K HKS). discriminate.
    + pose proof (vol_sqrt_pos T sigma HT Hs) as Hv.
      assert (Hln : 0 <= ln (S / K)).
      { rewrite <- ln_1. apply ln_monotone; [lra |].
        apply Rmult_le_reg_r with K; [exact HK |].
        unfold Rdiv. rewrite Rmult_assoc, Rinv_l by lra. lra. }
      assert (Hd1 : 0 < d1_R S K T r sigma).
      { unfold d1_R. apply Rdiv_lt_0_compat; [| exact Hv].
        assert (0 < sigma * sigma) by now apply Rmult_lt_0_compat.
        assert (0 < (r + 0.5 * (sigma * sigma)) * T)
          by (apply Rmult_lt_0_compat; lra).
        lra. }
      eexists. rewrite Reverse_finite by assumption.
      split; [reflexivity |]. cbn [d1 Nd1 jgt].
      split; apply R_ltb_true; [exact Hd1 |].
      rewrite (normCDF_R_pos _ Hd1).
      pose proof (cdf_tail_lt_half (d1_R S K T r sigma)). lra.
Qed.

Lemma X6_witness :
  Calculator.moneyness Calculator.initial_inputs = Calculator.ATM /\
  exists o : PricingResult,
    Reverse.blackScholesCall 2500 2500 1 0.07 0.25 = JObj o /\
    jgt (Nd1 o) 0.5 = true.
Proof.
  destruct X6_moneyness as [Hlabel Hd1].
  split.
  - destruct (Calculator.moneyness Calculator.initial_inputs) eqn:E; [| | reflexivity].
    + apply (proj1 (Hlabel Calculator.initial_inputs)) in E. cbn in E.
      rewrite (R_ltb_false 2500 2500) in E by lra. discriminate E.
    + apply (proj1 (proj2 (Hlabel Calculator.initial_inputs))) in E. cbn in E.
      rewrite (R_ltb_false 2500 2500) in E by lra. discriminate E.
  - destruct (Hd1 2500 2500 1 0.07 0.25) as [_ [o [Hr [_ Hn]]]];
      unfold slider_price, slider_params; try lra.
    exists o. split; [exact Hr | exact Hn].
Defined.

(** ** More on the sensitivity sweep *)

Lemma sweep_xs_finite (inputs : Reverse.Inputs) (ty : Reverse.Field)
    (a b : R) (lbl : string) (steps : nat) :
  (1 <= steps)%nat ->
  map Reverse.pt_x
    (Reverse.sweep inputs ty
       {| Reverse.rng_min := Fin a; Reverse.rng_max := Fin b;
          Reverse.rng_label := lbl |} steps)
  = map (fun i : nat => Fin (a + INR i * ((b - a) / INR steps))) (seq 0 (steps + 1)).
Proof.
  intros Hsteps. rewrite sweep_eq, map_map. apply map_ext. intros i.
  cbn [Reverse.rng_min Reverse.rng_max].
  now rewrite (sweep_point_finite inputs ty a b lbl steps i Hsteps).
Qed.

Lemma premium_read (S K T r sigma : jsnum) :
  get_prop premium (Reverse.blackScholesCall S K T r sigma)
  = if jle T 0 || jle sigma 0 then None
    else Some (premium (normal_record Reverse.normCDF S K T r sigma)).
Proof.
  destruct (jle T 0 || jle sigma 0) eqn:Hg.
  - unfold Reverse.blackScholesCall. now rewrite Hg.
  - now rewrite (Reverse_normal_path _ _ _ _ _ Hg).
Qed.

Lemma sample_positive (a b : R) (i : nat) :
  0 < a -> a <= b -> 0 < a + INR i * ((b - a) / INR 50).
Proof.
  intros Ha Hab. rewrite INR_50. pose proof (pos_INR i) as Hi.
  assert (0 <= (b - a) / 50) by lra. nra.
Qed.

Lemma generated_points (inputs : Reverse.Inputs) (ty : Reverse.Field) (p : Reverse.Point) :
  In p (Reverse.generateSensitivityData inputs ty) ->
  exists i : nat,
    (i <= 50)%nat /\
    p = Reverse.sweep_point inputs ty (Reverse.ranges inputs ty)
          ((Reverse.rng_max (Reverse.ranges inputs ty)
            - Reverse.rng_min (Reverse.ranges inputs ty)) / INR 50)%js i.
Proof.
  unfold Reverse.generateSensitivityData. cbv zeta. rewrite sweep_eq.
  intros Hin. apply in_map_iff in Hin. destruct Hin as [i [Hp Hi]].
  apply in_seq in Hi. exists i. split; [lia | now symmetry].
Qed.

(** X7. In one run of [generateSensitivityData] the premium is
    [undefined] at all 51 points or at none.  It is [undefined] exactly
    when the guard of the pricer fires on the fields that are not swept:
    on [sigma <= 0] in a sweep of [T] (whose samples are positive, the
    [T] of the inputs being ignored), on [T <= 0] in a sweep of [sigma],
    on [T <= 0 || sigma <= 0] in a sweep of [S], [K] or [r]. *)
Theorem X7_sweep_premium_defined (inputs : Reverse.Inputs) (ty : Reverse.Field) :
  let degenerate :=
    match ty with
    | Reverse.F_T => jle (Reverse.in_sigma inputs) 0
    | Reverse.F_sigma => jle (Reverse.in_T inputs) 0
    | _ => jle (Reverse.in_T inputs) 0 || jle (Reverse.in_sigma inputs) 0
    end in
  (degenerate = true ->
     Forall (fun p => Reverse.pt_premium p = None)
            (Reverse.generateSensitivityData inputs ty)) /\
  (degenerate = false ->
     Forall (fun p => exists v : jsnum, Reverse.pt_premium p = Some v)
            (Reverse.generateSensitivityData inputs ty)).
Proof.
  intros degenerate.
  assert (Hpt : forall p, In p (Reverse.generateSensitivityData inputs ty) ->
            (Reverse.pt_premium p = None <-> degenerate = true)).
  { intros p Hin. destruct (generated_points inputs ty p Hin) as [i [Hi ->]].
    subst degenerate. destruct inputs as [S K T r sigma].
    destruct ty;
      cbn [Reverse.ranges Reverse.rng_min Reverse.rng_max Reverse.in_S
           Reverse.in_K Reverse.in_T Reverse.in_r Reverse.in_sigma];
      rewrite ?sweep_point_finite by lia; unfold Reverse.sweep_point; cbv zeta;
      cbn [Reverse.pt_premium Reverse.set_field Reverse.in_S Reverse.in_K
           Reverse.in_T Reverse.in_r Reverse.in_sigma];
      rewrite premium_read; cbn [jle].
    - destruct (jle T 0 || jle sigma 0); split; congruence.
    - destruct (jle T 0 || jle sigma 0); split; congruence.
    - rewrite R_leb_false by (apply sample_positive; lra). cbn [orb].
      destruct (jle sigma 0); split; congruence.
    - destruct (jle T 0 || jle sigma 0); split; congruence.
    - rewrite (R_leb_false (0.05 + INR i * ((0.6 - 0.05) / INR 50)) 0)
        by (apply sample_positive; lra).
      rewrite orb_false_r. destruct (jle T 0); split; congruence. }
  split; intros Hd; apply Forall_forall; intros p Hin.
  - now apply Hpt.
  - destruct (Reverse.pt_premium p) as [v |] eqn:E; [now exists v |].
    apply (Hpt p Hin) in E. congruence.
Qed.

Lemma X7_witness :
  Forall (fun p => exists v : jsnum, Reverse.pt_premium p = Some v)
         (Reverse.generateSensitivityData Calculator.initial_inputs Reverse.F_T).
Proof.
  apply (proj2 (X7_sweep_premium_defined Calculator.initial_inputs Reverse.F_T)).
  cbn. apply R_leb_false. lra.
Defined.


(** X8. With [S], [K], [T], [r], [sigma] within the ranges of the sliders,
    every point of every sweep has a finite [x] and a finite premium (no
    NaN, no [undefined]): the sampled [S], [K], [T] and [sigma] are all
    positive. *)
Theorem X8_sweep_finite (S K T r sigma : R) (ty : Reverse.Field) :
  slider_price S -> slider_price K -> slider_params T r sigma ->
  Forall (fun p => exists x y : R,
            Reverse.pt_x p = Fin x /\ Reverse.pt_premium p = Some (Fin y))
         (Reverse.generateSensitivityData
            {| Reverse.in_S := Fin S; Reverse.in_K := Fin K; Reverse.in_T := Fin T;
               Reverse.in_r := Fin r; Reverse.in_sigma := Fin sigma |} ty).
Proof.
  intros HS0 HK0 HP.
  destruct (slider_positive S K T r sigma HS0 HK0 HP) as (HS & HK & HT & Hr & Hs).
  apply Forall_forall. intros p Hin.
  destruct (generated_points _ ty p Hin) as [i [Hi ->]].
  destruct ty;
    cbn [Reverse.ranges Reverse.rng_min Reverse.rng_max Reverse.in_S
         Reverse.in_K Reverse.in_T Reverse.in_r Reverse.in_sigma jmul];
    rewrite sweep_point_finite by lia; cbv zeta;
    cbn [Reverse.pt_x Reverse.pt_premium Reverse.set_field Reverse.in_S Reverse.in_K
         Reverse.in_T Reverse.in_r Reverse.in_sigma];
    eexists; eexists; (split; [reflexivity |]).
  - rewrite Reverse_finite; [reflexivity | | assumption ..].
    apply sample_positive; lra.
  - rewrite Reverse_finite; [reflexivity | assumption | | assumption ..].
    apply sample_positive; lra.
  - rewrite Reverse_finite; [reflexivity | assumption .. | | assumption].
    apply sample_positive; lra.
  - rewrite Reverse_finite; [reflexivity | assumption ..].
  - rewrite Reverse_finite; [reflexivity | assumption .. |].
    apply sample_positive; lra.
Qed.

Lemma X8_witness :
  Forall (fun p => exists x y : R,
            Reverse.pt_x p = Fin x /\ Reverse.pt_premium p = Some (Fin y))
         (Reverse.generateSensitivityData Calculator.initial_inputs Reverse.F_sigma).
Proof.
  apply (X8_sweep_finite 2500 2500 1 0.07 0.25 Reverse.F_sigma);
    unfold slider_price, slider_params; lra.
Defined.

Lemma scaled_sample (b : R) (i : nat) :
  b * 0.7 + INR i * ((b * 1.3 - b * 0.7) / INR 50) = b * (0.7 + 0.012 * INR i).
Proof. rewrite INR_50. lra. Qed.

Lemma scaled_xs (inputs : Reverse.Inputs) (ty : Reverse.Field) (b : R) :
  ty = Reverse.F_S \/ ty = Reverse.F_K ->
  Reverse.get_field inputs ty = Fin b ->
  map Reverse.pt_x (Reverse.generateSensitivityData inputs ty)
  = map (fun i : nat => Fin (b * (0.7 + 0.012 * INR i))) (seq 0 51).
Proof.
  intros Hty Hb. unfold Reverse.generateSensitivityData. cbv zeta.
  destruct Hty as [-> | ->]; cbn [Reverse.ranges Reverse.get_field] in *;
    rewrite Hb; cbn [jmul]; rewrite sweep_xs_finite by lia;
    apply map_ext; intros i; f_equal; apply scaled_sample.
Qed.


(** X9. In a sweep of [S] or of [K] on a base value [b], the 51 sampled
    values are [b * (0.7 + 0.012 * i)] and strictly increasing when [b] is
    between 1 and 5000, all equal to 0 when [b = 0], and
    [b * (0.7 + 0.012 * i)], strictly decreasing (from [0.7 * b] down to
    [1.3 * b]), when [b] is between -5000 and -1. *)
Theorem X9_scaled_sweep_orientation (inputs : Reverse.Inputs) (ty : Reverse.Field) (b : R) :
  ty = Reverse.F_S \/ ty = Reverse.F_K ->
  Reverse.get_field inputs ty = Fin b ->
  let xs := map Reverse.pt_x (Reverse.generateSensitivityData inputs ty) in
  List.length xs = 51%nat /\
  (1 <= Rabs b <= 5000 ->
     forall i : nat, (i <= 50)%nat -> nth i xs NaN = Fin (b * (0.7 + 0.012 * INR i))) /\
  (1 <= b <= 5000 -> strictly_increasing xs) /\
  (b = 0 -> forall i : nat, (i <= 50)%nat -> nth i xs NaN = Fin 0) /\
  (- 5000 <= b <= - 1 -> strictly_decreasing xs).
Proof.
  intros Hty Hb xs. subst xs. rewrite (scaled_xs inputs ty b Hty Hb).
  assert (Hnth : forall i : nat, (i <= 50)%nat ->
            nth i (map (fun i : nat => Fin (b * (0.7 + 0.012 * INR i))) (seq 0 51)) NaN
            = Fin (b * (0.7 + 0.012 * INR i))).
  { intros i Hi. now rewrite nth_map_seq by lia. }
  split; [now rewrite length_map, length_seq |].
  split; [intros _; exact Hnth |].
  split; [| split].
  - intros Hpos i j. rewrite length_map, length_seq. intros Hij.
    rewrite !Hnth by lia. cbn [jgt]. apply R_ltb_true.
    assert (INR i < INR j) by (apply lt_INR; lia). nra.
  - intros -> i Hi. rewrite Hnth by exact Hi. f_equal. ring.
  - intros Hneg i j. rewrite length_map, length_seq. intros Hij.
    rewrite !Hnth by lia. cbn [jgt]. apply R_ltb_true.
    assert (INR i < INR j) by (apply lt_INR; lia). nra.
Qed.

Lemma X9_witness :
  strictly_decreasing
    (map Reverse.pt_x
       (Reverse.generateSensitivityData
          {| Reverse.in_S := Fin (- 100); Reverse.in_K := 2500; Reverse.in_T := 1;
             Reverse.in_r := 0.07; Reverse.in_sigma := 0.25 |} Reverse.F_S)).
Proof.
  apply (X9_scaled_sweep_orientation _ Reverse.F_S (- 100)).
  - now left.
  - reflexivity.
  - lra.
Defined.

(** X10. In a sweep of [T], [r] or [sigma] the sampled values do not
    depend on the inputs: [T] runs over [0.1 + 0.038 * i], [r] over
    [0.01 + 0.0028 * i], [sigma] over [0.05 + 0.011 * i] ([i = 0 .. 50]),
    each strictly increasing. *)
Theorem X10_fixed_grids (inputs : Reverse.Inputs) :
  map Reverse.pt_x (Reverse.generateSensitivityData inputs Reverse.F_T)
  = map (fun i : nat => Fin (0.1 + 0.038 * INR i)) (seq 0 51) /\
  map Reverse.pt_x (Reverse.generateSensitivityData inputs Reverse.F_r)
  = map (fun i : nat => Fin (0.01 + 0.0028 * INR i)) (seq 0 51) /\
  map Reverse.pt_x (Reverse.generateSensitivityData inputs Reverse.F_sigma)
  = map (fun i : nat => Fin (0.05 + 0.011 * INR i)) (seq 0 51) /\
  strictly_increasing
    (map Reverse.pt_x (Reverse.generateSensitivityData inputs Reverse.F_T)) /\
  strictly_increasing
    (map Reverse.pt_x (Reverse.generateSensitivityData inputs Reverse.F_r)) /\
  strictly_increasing
    (map Reverse.pt_x (Reverse.generateSensitivityData inputs Reverse.F_sigma)).
Proof.
  assert (HT : map Reverse.pt_x (Reverse.generateSensitivityData inputs Reverse.F_T)
               = map (fun i : nat => Fin (0.1 + 0.038 * INR i)) (seq 0 51)).
  { unfold Reverse.generateSensitivityData. cbv zeta. cbn [Reverse.ranges].
    rewrite sweep_xs_finite by lia. apply map_ext. intros i. f_equal.
    rewrite INR_50. lra. }
  assert (Hr : map Reverse.pt_x (Reverse.generateSensitivityData inputs Reverse.F_r)
               = map (fun i : nat => Fin (0.01 + 0.0028 * INR i)) (seq 0 51)).
  { unfold Reverse.generateSensitivityData. cbv zeta. cbn [Reverse.ranges].
    rewrite sweep_xs_finite by lia. apply map_ext. intros i. f_equal.
    rewrite INR_50. lra. }
  assert (Hs : map Reverse.pt_x (Reverse.generateSensitivityData inputs Reverse.F_sigma)
               = map (fun i : nat => Fin (0.05 + 0.011 * INR i)) (seq 0 51)).
  { unfold Reverse.generateSensitivityData. cbv zeta. cbn [Reverse.ranges].
    rewrite sweep_xs_finite by lia. apply map_ext. intros i. f_equal.
    rewrite INR_50. lra. }
  assert (Hinc : forall a c : R, 0 < c ->
            strictly_increasing (map (fun i : nat => Fin (a + c * INR i)) (seq 0 51))).
  { intros a c Hc i j. rewrite length_map, length_seq. intros Hij.
    rewrite !nth_map_seq by lia. cbn [jgt Nat.add]. apply R_ltb_true.
    assert (INR i < INR j) by (apply lt_INR; lia). nra. }
  rewrite HT, Hr, Hs.
  repeat split; apply Hinc; lra.
Qed.

(** ** The chart data of [DefaultPage] *)

Lemma chart_point_throws (inputs : DefaultPage.Inputs) (min step : jsnum) (i : nat) :
  jle (Reverse.in_T inputs) 0 || jle (Reverse.in_sigma inputs) 0 = true ->
  DefaultPage.chart_point inputs min step i = Throws_TypeError.
Proof.
  intros Hg. unfold DefaultPage.chart_point. cbv zeta.
  unfold Default.blackScholesCall. rewrite Hg. reflexivity.
Qed.

Lemma chart_point_returns (inputs : DefaultPage.Inputs) (min step : jsnum) (i : nat) :
  jle (Reverse.in_T inputs) 0 || jle (Reverse.in_sigma inputs) 0 = false ->
  DefaultPage.chart_point inputs min step i
  = Returns
      {| DefaultPage.cp_spot := Math_round (min + INR i * step)%js;
         DefaultPage.cp_premium :=
           Number_toFixed 2
             (premium (normal_record Default.normCDF (min + INR i * step)%js
                         (Reverse.in_K inputs) (Reverse.in_T inputs)
                         (Reverse.in_r inputs) (Reverse.in_sigma inputs))) |}.
Proof.
  intros Hg. unfold DefaultPage.chart_point. cbv zeta.
  rewrite (Default_normal_path _ _ _ _ _ Hg). reflexivity.
Qed.

Lemma chart_loop_returns (inputs : DefaultPage.Inputs) (min step : jsnum)
    (points fuel i : nat) (data : list DefaultPage.ChartPoint) :
  jle (Reverse.in_T inputs) 0 || jle (Reverse.in_sigma inputs) 0 = false ->
  (points - i <= fuel)%nat ->
  DefaultPage.chart_loop fuel inputs min step points i data
  = Returns
      (data ++
       map (fun i : nat =>
              {| DefaultPage.cp_spot := Math_round (min + INR i * step)%js;
                 DefaultPage.cp_premium :=
                   Number_toFixed 2
                     (premium (normal_record Default.normCDF (min + INR i * step)%js
                                 (Reverse.in_K inputs) (Reverse.in_T inputs)
                                 (Reverse.in_r inputs) (Reverse.in_sigma inputs))) |})
           (seq i (points - i))).
Proof.
  intros Hg. revert i data. induction fuel as [| fuel IH]; intros i data Hfuel.
  - replace (points - i)%nat with 0%nat by lia. cbn. now rewrite app_nil_r.
  - cbn [DefaultPage.chart_loop].
    destruct (Nat.ltb_spec i points) as [Hlt | Hge].
    + rewrite (chart_point_returns inputs min step i Hg).
      rewrite IH by lia.
      replace (points - i)%nat with (Datatypes.S (points - (i + 1))) by lia.
      cbn [seq map]. rewrite <- app_assoc. cbn [app].
      now replace (Datatypes.S i) with (i + 1)%nat by lia.
    + replace (points - i)%nat with 0%nat by lia. cbn. now rewrite app_nil_r.
Qed.

Lemma chart_loop_throws (inputs : DefaultPage.Inputs) (min step : jsnum)
    (points fuel i : nat) (data : list DefaultPage.ChartPoint) :
  jle (Reverse.in_T inputs) 0 || jle (Reverse.in_sigma inputs) 0 = true ->
  (i < points)%nat ->
  DefaultPage.chart_loop (Datatypes.S fuel) inputs min step points i data
  = Throws_TypeError.
Proof.
  intros Hg Hi. cbn [DefaultPage.chart_loop].
  destruct (Nat.ltb_spec i points) as [_ | Hge]; [| lia].
  now rewrite (chart_point_throws inputs min step i Hg).
Qed.

(** X11. [chartData] throws a [TypeError] exactly when [T <= 0] or
    [sigma <= 0]: the pricer then returns the bare 0, whose [premium] is
    [undefined], and [p.premium.toFixed(2)] fails at the first point.
    Otherwise it returns exactly 60 points. *)
Theorem X11_chartData_outcome (inputs : DefaultPage.Inputs) :
  (jle (Reverse.in_T inputs) 0 || jle (Reverse.in_sigma inputs) 0 = true ->
     DefaultPage.chartData inputs = Throws_TypeError) /\
  (jle (Reverse.in_T inputs) 0 || jle (Reverse.in_sigma inputs) 0 = false ->
     exists data : list DefaultPage.ChartPoint,
       DefaultPage.chartData inputs = Returns data /\ List.length data = 60%nat) /\
  (DefaultPage.chartData inputs = Throws_TypeError <->
     jle (Reverse.in_T inputs) 0 || jle (Reverse.in_sigma inputs) 0 = true).
Proof.
  assert (Hthrow : jle (Reverse.in_T inputs) 0 || jle (Reverse.in_sigma inputs) 0 = true ->
                   DefaultPage.chartData inputs = Throws_TypeError).
  { intros Hg. unfold DefaultPage.chartData. cbv zeta.
    now apply chart_loop_throws; [exact Hg | lia]. }
  assert (Hret : jle (Reverse.in_T inputs) 0 || jle (Reverse.in_sigma inputs) 0 = false ->
     exists data : list DefaultPage.ChartPoint,
       DefaultPage.chartData inputs = Returns data /\ List.length data = 60%nat).
  { intros Hg. unfold DefaultPage.chartData. cbv zeta.
    rewrite (chart_loop_returns inputs _ _ 60 60 0 [] Hg) by lia.
    eexists. split; [reflexivity |].
    cbn [app]. now rewrite length_map, length_seq. }
  split; [exact Hthrow |]. split; [exact Hret |].
  split; [| exact Hthrow].
  intros Hc.
  destruct (jle (Reverse.in_T inputs) 0 || jle (Reverse.in_sigma inputs) 0) eqn:Hg;
    [reflexivity |].
  destruct (Hret eq_refl) as [data [Hd _]]. rewrite Hd in Hc. discriminate Hc.
Qed.

Lemma X11_witness :
  DefaultPage.chartData
    {| Reverse.in_S := 2500; Reverse.in_K := 2400; Reverse.in_T := 0;
       Reverse.in_r := 0.05; Reverse.in_sigma := 0.2 |} = Throws_TypeError /\
  exists data : list DefaultPage.ChartPoint,
    DefaultPage.chartData
      {| Reverse.in_S := 2500; Reverse.in_K := 2400; Reverse.in_T := 1;
         Reverse.in_r := 0.05; Reverse.in_sigma := 0.2 |} = Returns data /\
    List.length data = 60%nat.
Proof.
  split.
  - apply (proj1 (X11_chartData_outcome _)). cbn.
    now rewrite (R_leb_true 0 0) by lra.
  - apply (proj1 (proj2 (X11_chartData_outcome _))). cbn.
    now rewrite (R_leb_false 1 0), (R_leb_false 0.2 0) by lra.
Defined.

(** *** Rounding: [Math.round] and [Number(x.toFixed(2))] *)

Lemma Int_part_monotone (x y : R) : x <= y -> (Int_part x <= Int_part y)%Z.
Proof.
  intros Hxy.
  destruct (base_Int_part x) as [Hx _]. destruct (base_Int_part y) as [_ Hy].
  assert (H : IZR (Int_part x) < IZR (Int_part y + 1)) by (rewrite plus_IZR; lra).
  apply lt_IZR in H. lia.
Qed.

Lemma Int_part_half (x : R) :
  x - 1 / 2 < IZR (Int_part (x + 0.5)) <= x + 1 / 2.
Proof. destruct (base_Int_part (x + 0.5)) as [H1 H2]. lra. Qed.

Lemma Number_toFixed_2_near (v : R) :
  Rabs v < 10 ^ 21 ->
  exists n : Z,
    Number_toFixed 2 (Fin v) = Fin (IZR n / 100) /\
    Rabs (IZR n / 100 - v) <= 0.005.
Proof.
  intros Hv. unfold Number_toFixed.
  rewrite (R_leb_false (10 ^ 21) (Rabs v) Hv).
  assert (E100 : 10 ^ 2 = 100) by (simpl; lra).
  rewrite E100.
  destruct (Rlt_dec v 0) as [Hneg | Hpos].
  - rewrite (R_ltb_true v 0 Hneg).
    exists (- Int_part (- v * 100 + 0.5))%Z. rewrite opp_IZR.
    split; [f_equal; lra |].
    pose proof (Int_part_half (- v * 100)) as H.
    apply Rabs_le. lra.
  - rewrite (R_ltb_false v 0) by lra.
    exists (Int_part (v * 100 + 0.5)). split; [reflexivity |].
    pose proof (Int_part_half (v * 100)) as H.
    apply Rabs_le. lra.
Qed.

Lemma premium_R_bounds (S K T r sigma : R) :
  0 < S -> 0 < K -> 0 <= r -> 0 < T ->
  - K < premium_R S K T r sigma < S.
Proof.
  intros HS HK Hr HT.
  pose proof (normCDF_R_range (d1_R S K T r sigma)) as H1.
  pose proof (normCDF_R_range (d2_R S K T r sigma)) as H2.
  pose proof (exp_pos (- r * T)) as He.
  assert (Hdf : exp (- r * T) <= 1).
  { rewrite <- exp_0. destruct (Req_dec (r * T) 0) as [E | N].
    - right. f_equal. lra.
    - left. apply exp_increasing. nra. }
  assert (Ha : 0 < K * exp (- r * T) <= K) by nra.
  assert (Hb : 0 < K * exp (- r * T) * normCDF_R (d2_R S K T r sigma)
               < K * exp (- r * T)) by nra.
  unfold premium_R. nra.
Qed.

(** *** The grid of [chartData] *)

Lemma INR_59 : INR (60 - 1) = 59.
Proof. rewrite INR_IZR_INZ. reflexivity. Qed.

Lemma nth_error_map_seq (A : Type) (f : nat -> A) (n i : nat) :
  (i < n)%nat -> nth_error (map f (seq 0 n)) i = Some (f i).
Proof.
  intros Hi. rewrite nth_error_map, nth_error_seq.
  destruct (Nat.ltb_spec i n) as [_ | H]; [reflexivity | lia].
Qed.

Lemma chartData_finite_spot (inputs : DefaultPage.Inputs) (s : R) :
  Reverse.in_S inputs = Fin s ->
  jle (Reverse.in_T inputs) 0 || jle (Reverse.in_sigma inputs) 0 = false ->
  DefaultPage.chartData inputs
  = Returns
      (map (fun i : nat =>
              let x := Rmax 0.1 (s * 0.5)
                       + INR i * ((s * 1.5 - Rmax 0.1 (s * 0.5)) / 59) in
              {| DefaultPage.cp_spot := Math_round (Fin x);
                 DefaultPage.cp_premium :=
                   Number_toFixed 2
                     (premium (normal_record Default.normCDF (Fin x)
                                 (Reverse.in_K inputs) (Reverse.in_T inputs)
                                 (Reverse.in_r inputs) (Reverse.in_sigma inputs))) |})
           (seq 0 60)).
Proof.
  intros HS Hg. unfold DefaultPage.chartData. cbv zeta.
  rewrite (chart_loop_returns inputs _ _ 60 60 0 [] Hg) by lia.
  cbn [app]. f_equal. apply map_ext. intros i. cbv zeta.
  rewrite HS. cbn [jmul Math_max jsub jadd jneg].
  rewrite jdiv_Fin by (rewrite INR_59; lra).
  rewrite INR_59. cbn [jmul jadd]. reflexivity.
Qed.

Lemma chart_grid_range (s : R) (i : nat) :
  / 15 <= s -> (i <= 59)%nat ->
  let m := Rmax 0.1 (s * 0.5) in
  0.1 <= m /\ m <= m + INR i * ((s * 1.5 - m) / 59) <= s * 1.5.
Proof.
  intros Hs Hi m.
  assert (Hm1 : 0.1 <= m) by apply Rmax_l.
  assert (Hm2 : m <= s * 1.5).
  { unfold m. apply Rmax_lub; lra. }
  pose proof (pos_INR i) as H0.
  assert (H59 : INR i <= 59).
  { replace 59 with (INR 59) by (rewrite INR_IZR_INZ; reflexivity). now apply le_INR. }
  split; [exact Hm1 |]. split; nra.
Qed.


(** X12. When the chart is drawn ([T > 0], [sigma > 0]) on a spot [S]
    between 1 and 5000, the pricer is evaluated at the 60 spots
    [min + i * (max - min) / 59] with [min = max(0.1, S / 2) = S / 2] and
    [max = 1.5 * S]: they run from [min] to [max].  The [spot] of a point
    is an integer, the rounding of that value: it is 1/2 away from it at
    most, up to the rounding of the value itself; the [premium] of a point
    is the premium of the pricer at that spot, rounded to two decimals.
    The plotted spots are in ascending order. *)
Theorem X12_chart_grid (inputs : DefaultPage.Inputs) (s : R) :
  Reverse.in_S inputs = Fin s -> 1 <= s <= 5000 ->
  jle (Reverse.in_T inputs) 0 || jle (Reverse.in_sigma inputs) 0 = false ->
  let m := Rmax 0.1 (s * 0.5) in
  let x := fun i : nat => m + INR i * ((s * 1.5 - m) / 59) in
  exists data : list DefaultPage.ChartPoint,
    DefaultPage.chartData inputs = Returns data /\
    m = s * 0.5 /\ x 0%nat = m /\ x 59%nat = s * 1.5 /\
    (forall i : nat, (i <= 59)%nat ->
       m <= x i <= s * 1.5 /\
       exists (pt : DefaultPage.ChartPoint) (n : Z) (o : PricingResult),
         nth_error data i = Some pt /\
         DefaultPage.cp_spot pt = Fin (IZR n) /\
         x i - 1 / 2 - 1e-9 <= IZR n <= x i + 1 / 2 + 1e-9 /\
         Default.blackScholesCall (Fin (x i)) (Reverse.in_K inputs)
           (Reverse.in_T inputs) (Reverse.in_r inputs) (Reverse.in_sigma inputs)
         = JObj o /\
         DefaultPage.cp_premium pt = Number_toFixed 2 (premium o)) /\
    ascending (map DefaultPage.cp_spot data).
Proof.
  intros HS Hs Hg m x.
  assert (Hs15 : / 15 <= s) by lra.
  eexists. split; [exact (chartData_finite_spot inputs s HS Hg) |].
  split; [unfold m; apply Rmax_right; lra |].
  split; [unfold x; cbn; lra |].
  split; [unfold x; replace (INR 59) with 59 by (rewrite INR_IZR_INZ; reflexivity); lra |].
  split.
  - intros i Hi.
    destruct (chart_grid_range s i Hs15 Hi) as [Hm Hx]. fold m in Hm, Hx. fold (x i) in Hx.
    split; [exact Hx |].
    rewrite nth_error_map_seq by lia. cbv zeta. fold m. fold (x i).
    eexists. exists (Int_part (x i + 0.5)). eexists.
    split; [reflexivity |].
    cbn [DefaultPage.cp_spot DefaultPage.cp_premium Math_round].
    split; [reflexivity |].
    split; [pose proof (Int_part_half (x i)); lra |].
    split; [apply (Default_normal_path _ _ _ _ _ Hg) | reflexivity].
  - intros i j. rewrite !length_map, length_seq. intros Hij.
    rewrite map_map. rewrite !nth_map_seq by lia.
    cbv zeta. cbn [DefaultPage.cp_spot Math_round jle Nat.add]. fold m.
    apply R_leb_true. apply IZR_le. apply Int_part_monotone.
    assert (Hle : INR i <= INR j) by (apply le_INR; lia).
    assert (Hm2 : m <= s * 1.5) by (unfold m; apply Rmax_lub; lra).
    nra.
Qed.

Lemma X12_witness :
  exists data : list DefaultPage.ChartPoint,
    DefaultPage.chartData
      {| Reverse.in_S := 2500; Reverse.in_K := 2400; Reverse.in_T := 1;
         Reverse.in_r := 0.05; Reverse.in_sigma := 0.2 |} = Returns data /\
    ascending (map DefaultPage.cp_spot data).
Proof.
  destruct (X12_chart_grid
              {| Reverse.in_S := 2500; Reverse.in_K := 2400; Reverse.in_T := 1;
                 Reverse.in_r := 0.05; Reverse.in_sigma := 0.2 |} 2500)
    as [data [Hd [_ [_ [_ [_ Hasc]]]]]].
  - reflexivity.
  - lra.
  - cbn. now rewrite (R_leb_false 1 0), (R_leb_false 0.2 0) by lra.
  - exists data. split; [exact Hd | exact Hasc].
Defined.


(** X13. On a spot [S] between -5000 and 0 the range of the chart is
    inverted: [min = 0.1] is above [max = 1.5 * S], and the pricer is
    evaluated at spots that strictly decrease from 0.1 down to
    [1.5 * S]; the [spot] of a point is the rounding of that value to an
    integer. *)
Theorem X13_chart_inverted (inputs : DefaultPage.Inputs) (s : R) :
  Reverse.in_S inputs = Fin s -> - 5000 <= s <= 0 ->
  jle (Reverse.in_T inputs) 0 || jle (Reverse.in_sigma inputs) 0 = false ->
  let x := fun i : nat => 0.1 + INR i * ((s * 1.5 - 0.1) / 59) in
  Math_max 0.1 (Reverse.in_S inputs * 0.5)%js = Fin 0.1 /\
  s * 1.5 < 0.1 /\
  x 0%nat = 0.1 /\ x 59%nat = s * 1.5 /\
  (forall i j : nat, (i < j)%nat -> x j < x i) /\
  exists data : list DefaultPage.ChartPoint,
    DefaultPage.chartData inputs = Returns data /\
    forall i : nat, (i <= 59)%nat ->
      exists (pt : DefaultPage.ChartPoint) (n : Z) (o : PricingResult),
        nth_error data i = Some pt /\
        DefaultPage.cp_spot pt = Fin (IZR n) /\
        x i - 1 / 2 - 1e-9 <= IZR n <= x i + 1 / 2 + 1e-9 /\
        Default.blackScholesCall (Fin (x i)) (Reverse.in_K inputs)
          (Reverse.in_T inputs) (Reverse.in_r inputs) (Reverse.in_sigma inputs)
        = JObj o /\
        DefaultPage.cp_premium pt = Number_toFixed 2 (premium o).
Proof.
  intros HS Hs Hg x.
  assert (Hm : Rmax 0.1 (s * 0.5) = 0.1) by (apply Rmax_left; lra).
  split; [rewrite HS; cbn [jmul Math_max]; now rewrite Hm |].
  split; [lra |].
  split; [unfold x; cbn; lra |].
  split; [unfold x; replace (INR 59) with 59 by (rewrite INR_IZR_INZ; reflexivity); lra |].
  split.
  - intros i j Hij. unfold x. assert (INR i < INR j) by (apply lt_INR; lia). nra.
  - eexists. split; [exact (chartData_finite_spot inputs s HS Hg) |].
    intros i Hi. rewrite nth_error_map_seq by lia. cbv zeta. rewrite Hm. fold (x i).
    eexists. exists (Int_part (x i + 0.5)). eexists.
    split; [reflexivity |].
    cbn [DefaultPage.cp_spot DefaultPage.cp_premium Math_round].
    split; [reflexivity |].
    split; [pose proof (Int_part_half (x i)); lra |].
    split; [apply (Default_normal_path _ _ _ _ _ Hg) | reflexivity].
Qed.

Lemma X13_witness :
  Math_max 0.1 (Fin 0 * 0.5)%js = Fin 0.1 /\ 0 * 1.5 < 0.1.
Proof.
  destruct (X13_chart_inverted
              {| Reverse.in_S := Fin 0; Reverse.in_K := 2400; Reverse.in_T := 1;
                 Reverse.in_r := 0.05; Reverse.in_sigma := 0.2 |} 0)
    as [Hm [Hlt _]].
  - reflexivity.
  - lra.
  - cbn. now rewrite (R_leb_false 1 0), (R_leb_false 0.2 0) by lra.
  - split; [exact Hm | exact Hlt].
Defined.


(** X14. When the chart is drawn on inputs within the ranges of the
    sliders, the [premium] of every point is a finite number with two
    decimals, within 0.01 of the premium of the pricer at the spot of the
    point (0.005 for the rounding to two decimals; the rest covers the
    rounding of the spot and of the premium). *)
Theorem X14_chart_premium_rounding (S K T r sigma : R) :
  slider_price S -> slider_price K -> slider_params T r sigma ->
  let m := Rmax 0.1 (S * 0.5) in
  let x := fun i : nat => m + INR i * ((S * 1.5 - m) / 59) in
  exists data : list DefaultPage.ChartPoint,
    DefaultPage.chartData
      {| Reverse.in_S := Fin S; Reverse.in_K := Fin K; Reverse.in_T := Fin T;
         Reverse.in_r := Fin r; Reverse.in_sigma := Fin sigma |} = Returns data /\
    forall i : nat, (i <= 59)%nat ->
      exists (pt : DefaultPage.ChartPoint) (n : Z),
        nth_error data i = Some pt /\
        DefaultPage.cp_premium pt = Fin (IZR n / 100) /\
        Rabs (IZR n / 100 - premium_R (x i) K T r sigma) <= 0.01.
Proof.
  intros HS0 HK0 HP m x.
  destruct (slider_positive S K T r sigma HS0 HK0 HP) as (HS & HK1 & HT & Hr & Hs).
  assert (HS1 : / 15 <= S) by (unfold slider_price in HS0; lra).
  pose proof (finite_guard_false T sigma HT Hs) as Hg.
  eexists. split.
  - exact (chartData_finite_spot
             {| Reverse.in_S := Fin S; Reverse.in_K := Fin K; Reverse.in_T := Fin T;
                Reverse.in_r := Fin r; Reverse.in_sigma := Fin sigma |} S eq_refl Hg).
  - intros i Hi. rewrite nth_error_map_seq by lia. cbv zeta. fold m. fold (x i).
    destruct (chart_grid_range S i HS1 Hi) as [Hm Hx]. fold m in Hm, Hx. fold (x i) in Hx.
    assert (Hxpos : 0 < x i) by lra.
    cbn [Reverse.in_K Reverse.in_T Reverse.in_r Reverse.in_sigma].
    rewrite (finite_normal_record (x i) K T r sigma Hxpos HK1 HT Hs).
    cbn [premium].
    pose proof (premium_R_bounds (x i) K T r sigma Hxpos HK1 Hr HT) as Hb.
    assert (Hbig : Rabs (premium_R (x i) K T r sigma) < 10 ^ 21).
    { unfold slider_price in HS0, HK0. apply Rabs_def1; lra. }
    destruct (Number_toFixed_2_near _ Hbig) as [n [En Hn]].
    eexists. exists n. split; [reflexivity |].
    cbn [DefaultPage.cp_premium]. split; [exact En | lra].
Qed.

Lemma X14_witness :
  exists data : list DefaultPage.ChartPoint,
    DefaultPage.chartData
      {| Reverse.in_S := 2500; Reverse.in_K := 2400; Reverse.in_T := 1;
         Reverse.in_r := 0.05; Reverse.in_sigma := 0.2 |} = Returns data /\
    exists (pt : DefaultPage.ChartPoint) (n : Z),
      nth_error data 0 = Some pt /\ DefaultPage.cp_premium pt = Fin (IZR n / 100).
Proof.
  destruct (X14_chart_premium_rounding 2500 2400 1 0.05 0.2) as [data [Hd Hpts]];
    unfold slider_price, slider_params; try lra.
  exists data. split; [exact Hd |].
  destruct (Hpts 0%nat) as [pt [n [Hnth [Hp _]]]]; [lia |].
  exists pt, n. split; [exact Hnth | exact Hp].
Defined.

(** ** The input handlers and the render test *)

Lemma js_or_0_cases (a : jsnum) :
  is_nan (js_or a 0) = false /\
  (is_nan a = false -> a <> Fin 0 -> js_or a 0 = a) /\
  (is_nan a = true \/ a = Fin 0 -> js_or a 0 = Fin 0).
Proof.
  destruct a as [x| | |]; cbn.
  - unfold R_eqb. destruct (Req_dec_T x 0) as [-> | Hx].
    + repeat split; intros; reflexivity.
    + repeat split; intros; try reflexivity.
      destruct H as [H | H]; [discriminate | congruence].
  - repeat split; intros [H | H]; discriminate.
  - repeat split; intros [H | H]; discriminate.
  - repeat split; intros; try reflexivity. discriminate.
Qed.

(** X15. [handleInputChange(key, value)] stores [parseFloat(value)] in the
    field [key] when that is a non-zero number (an infinity included) and
    0 when it is NaN or 0; it never stores NaN.  The other four fields are
    unchanged, and a later change of the same field overrides an earlier
    one. *)
Theorem X15_handleInputChange (parseFloat : string -> jsnum)
    (key : Reverse.Field) (value : string) (prev : Reverse.Inputs) :
  let next := Calculator.handleInputChange parseFloat key value prev in
  (forall f : Reverse.Field,
     Reverse.get_field next f
     = if Field_eqb f key then js_or (parseFloat value) 0
       else Reverse.get_field prev f) /\
  is_nan (Reverse.get_field next key) = false /\
  (is_nan (parseFloat value) = false -> parseFloat value <> Fin 0 ->
     Reverse.get_field next key = parseFloat value) /\
  (is_nan (parseFloat value) = true \/ parseFloat value = Fin 0 ->
     Reverse.get_field next key = Fin 0) /\
  (forall value' : string,
     Calculator.handleInputChange parseFloat key value'
       (Calculator.handleInputChange parseFloat key value prev)
     = Calculator.handleInputChange parseFloat key value' prev).
Proof.
  intros next. subst next. unfold Calculator.handleInputChange.
  destruct (js_or_0_cases (parseFloat value)) as [Hnan [Hkeep Hzero]].
  assert (Hkey : Reverse.get_field
                   (Reverse.set_field prev key (js_or (parseFloat value) 0)) key
                 = js_or (parseFloat value) 0).
  { rewrite set_field_get. now destruct key. }
  split; [intros f; apply set_field_get |].
  rewrite Hkey.
  split; [exact Hnan |]. split; [exact Hkeep |]. split; [exact Hzero |].
  intros value'. destruct key, prev; reflexivity.
Qed.

Lemma X15_witness :
  Reverse.get_field
    (Calculator.handleInputChange (fun _ => NaN) Reverse.F_T "abc"
       Calculator.initial_inputs) Reverse.F_T = Fin 0.
Proof.
  destruct (X15_handleInputChange (fun _ => NaN) Reverse.F_T "abc"
              Calculator.initial_inputs) as [_ [_ [_ [Hzero _]]]].
  apply Hzero. left. reflexivity.
Defined.

Lemma handleInputChange_nan_free (parseFloat : string -> jsnum)
    (key : Reverse.Field) (value : string) (prev : Reverse.Inputs) :
  nan_free prev -> nan_free (Calculator.handleInputChange parseFloat key value prev).
Proof.
  intros Hprev f. unfold Calculator.handleInputChange. rewrite set_field_get.
  destruct (Field_eqb f key); [apply js_or_0_cases | apply Hprev].
Qed.

(** X16. No sequence of input events puts a NaN in the inputs: if no
    field is NaN before, none is after any number of
    [handleInputChange]; in particular from the initial inputs, whatever
    [parseFloat] returns. *)
Theorem X16_inputs_stay_nan_free (parseFloat : string -> jsnum)
    (events : list (Reverse.Field * string)) :
  (forall st : Reverse.Inputs,
     nan_free st -> nan_free (Calculator.handle_all parseFloat events st)) /\
  nan_free (Calculator.handle_all parseFloat events Calculator.initial_inputs).
Proof.
  assert (H : forall st : Reverse.Inputs,
            nan_free st -> nan_free (Calculator.handle_all parseFloat events st)).
  { unfold Calculator.handle_all.
    induction events as [| [key value] events IH]; intros st Hst; [exact Hst |].
    cbn [fold_left fst snd]. apply IH. now apply handleInputChange_nan_free. }
  split; [exact H |]. apply H. intros f. destruct f; reflexivity.
Qed.

Lemma X16_witness :
  nan_free
    (Calculator.handle_all (fun _ => NaN) [(Reverse.F_S, "x"%string)]
       Calculator.initial_inputs).
Proof.
  apply (proj1 (X16_inputs_stay_nan_free (fun _ => NaN) [(Reverse.F_S, "x"%string)])).
  intros f. destruct f; reflexivity.
Defined.

Lemma render_effect (inputs : Reverse.Inputs) :
  Calculator.render (Calculator.effect_result inputs)
  = if jle (Reverse.in_T inputs) 0 || jle (Reverse.in_sigma inputs) 0
    then Calculator.Loading else Calculator.Panels.
Proof.
  unfold Calculator.render, Calculator.effect_result, Reverse.blackScholesCall.
  destruct (jle (Reverse.in_T inputs) 0 || jle (Reverse.in_sigma inputs) 0).
  - cbn. now rewrite (R_eqb_true 0 0).
  - reflexivity.
Qed.

(** X17. [BlackScholesCalculator] renders the [Loading...] placeholder
    while [result] is [null], and also once the effect has stored the
    result of the pricer, exactly when [T <= 0] or [sigma <= 0]: the bare
    0 is falsy, the object is not.  So after a change of [T] or [sigma] to
    a text that [parseFloat] reads as NaN or as 0, the component shows
    [Loading...]. *)
Theorem X17_loading (parseFloat : string -> jsnum) :
  Calculator.render None = Calculator.Loading /\
  (forall inputs : Reverse.Inputs,
     Calculator.render (Calculator.effect_result inputs) = Calculator.Loading <->
     jle (Reverse.in_T inputs) 0 || jle (Reverse.in_sigma inputs) 0 = true) /\
  (forall (key : Reverse.Field) (value : string) (prev : Reverse.Inputs),
     key = Reverse.F_T \/ key = Reverse.F_sigma ->
     is_nan (parseFloat value) = true \/ parseFloat value = Fin 0 ->
     Calculator.render
       (Calculator.effect_result
          (Calculator.handleInputChange parseFloat key value prev))
     = Calculator.Loading).
Proof.
  split; [reflexivity |]. split.
  - intros inputs. rewrite render_effect.
    destruct (jle (Reverse.in_T inputs) 0 || jle (Reverse.in_sigma inputs) 0);
      split; congruence.
  - intros key value prev Hkey Hv. rewrite render_effect.
    unfold Calculator.handleInputChange.
    destruct (js_or_0_cases (parseFloat value)) as [_ [_ Hzero]].
    rewrite (Hzero Hv).
    destruct prev as [S K T r sigma].
    destruct Hkey as [-> | ->];
      cbn [Reverse.set_field Reverse.in_T Reverse.in_sigma jle];
      rewrite (R_leb_true 0 0) by lra; [reflexivity | now rewrite orb_true_r].
Qed.

Lemma X17_witness :
  Calculator.render
    (Calculator.effect_result
       (Calculator.handleInputChange (fun _ => NaN) Reverse.F_sigma "abc"
          Calculator.initial_inputs))
  = Calculator.Loading.
Proof.
  apply (proj2 (proj2 (X17_loading (fun _ => NaN)))).
  - now right.
  - now left.
Defined.

(** X18. Whether [chartData] throws depends on [T] and [sigma] only: an
    [update] of [S], [K] or [r] never changes it, and an [update] of [T]
    or of [sigma] to a value [<= 0] makes it throw. *)
Theorem X18_update_chartData (s : DefaultPage.Inputs) (field : Reverse.Field) (value : jsnum) :
  (field = Reverse.F_S \/ field = Reverse.F_K \/ field = Reverse.F_r ->
     (DefaultPage.chartData (DefaultPage.update field value s) = Throws_TypeError <->
      DefaultPage.chartData s = Throws_TypeError)) /\
  (field = Reverse.F_T \/ field = Reverse.F_sigma ->
     jle value 0 = true ->
     DefaultPage.chartData (DefaultPage.update field value s) = Throws_TypeError).
Proof.
  assert (Hiff : forall inputs : DefaultPage.Inputs,
            DefaultPage.chartData inputs = Throws_TypeError <->
            jle (Reverse.in_T inputs) 0 || jle (Reverse.in_sigma inputs) 0 = true).
  { intros inputs. split.
    - intros Hc.
      destruct (jle (Reverse.in_T inputs) 0 || jle (Reverse.in_sigma inputs) 0) eqn:Hg;
        [reflexivity |].
      unfold DefaultPage.chartData in Hc. cbv zeta in Hc.
      rewrite (chart_loop_returns inputs _ _ 60 60 0 [] Hg) in Hc by lia.
      discriminate Hc.
    - intros Hg. unfold DefaultPage.chartData. cbv zeta.
      apply chart_loop_throws; [exact Hg | lia]. }
  unfold DefaultPage.update. destruct s as [S K T r sigma]. split.
  - intros Hf. rewrite !Hiff.
    destruct Hf as [-> | [-> | ->]]; reflexivity.
  - intros Hf Hv. apply Hiff.
    destruct Hf as [-> | ->]; cbn [Reverse.set_field Reverse.in_T Reverse.in_sigma];
      rewrite Hv; [reflexivity | apply orb_true_r].
Qed.

Lemma X18_witness :
  DefaultPage.chartData
    (DefaultPage.update Reverse.F_T 0 Calculator.initial_inputs) = Throws_TypeError.
Proof.
  apply (proj2 (X18_update_chartData Calculator.initial_inputs Reverse.F_T 0)).
  - now left.
  - cbn. apply R_leb_true. lra.
Defined.

(** ** An infinite [T] or [sigma] *)

Lemma mul_PInf_not_finite (a : jsnum) : is_finite (a * PInf)%js = false.
Proof.
  destruct a as [x| | |]; cbn; try reflexivity.
  unfold signed_inf. destruct (R_ltb 0 x); [reflexivity |].
  destruct (R_ltb x 0); reflexivity.
Qed.

Lemma add_not_finite (a b : jsnum) : is_finite b = false -> is_finite (a + b)%js = false.
Proof. destruct a, b; cbn; congruence. Qed.

Lemma div_PInf_not_finite (a : jsnum) : is_finite a = false -> (a / PInf)%js = NaN.
Proof. destruct a; cbn; congruence. Qed.

Lemma mul_positive_not_finite (a T : jsnum) :
  is_finite a = false -> jgt T 0 = true -> is_finite (a * T)%js = false.
Proof.
  intros Ha HT. destruct (jgt_0_cases T HT) as [[t [-> Ht]] | ->].
  - destruct a; cbn in Ha |- *; try congruence;
      unfold signed_inf; now rewrite (R_ltb_true 0 t Ht).
  - destruct a; cbn in Ha |- *; congruence.
Qed.

(** X19. [T = +Infinity] or [sigma = +Infinity] passes the guard, and
    then [d1] is NaN whatever the other inputs are (an infinity divided
    by an infinity), and with it [d2], [Nd1], [Nd2] and [premium]. *)
Theorem X19_infinite_T_or_sigma (S K T r sigma : jsnum) :
  jgt T 0 = true -> jgt sigma 0 = true -> T = PInf \/ sigma = PInf ->
  exists o : PricingResult,
    Default.blackScholesCall S K T r sigma = JObj o /\
    Reverse.blackScholesCall S K T r sigma = JObj o /\
    premium o = NaN /\ d1 o = NaN /\ d2 o = NaN /\ Nd1 o = NaN /\ Nd2 o = NaN.
Proof.
  intros HT Hs Hinf.
  pose proof (guard_false T sigma HT Hs) as Hg.
  exists (normal_record Default.normCDF S K T r sigma).
  rewrite (Default_normal_path _ _ _ _ _ Hg), (Reverse_normal_path _ _ _ _ _ Hg).
  do 2 (split; [reflexivity |]).
  assert (Hden : (sigma * Math_sqrt T)%js = PInf).
  { destruct Hinf as [-> | ->].
    - destruct (jgt_0_cases sigma Hs) as [[v [-> Hv]] | ->]; cbn;
        [unfold signed_inf; now rewrite (R_ltb_true 0 v Hv) | reflexivity].
    - destruct (jgt_0_cases T HT) as [[t [-> Ht]] | ->]; [| reflexivity].
      rewrite Math_sqrt_Fin by lra. cbn. unfold signed_inf.
      now rewrite (R_ltb_true 0 (sqrt t)) by (now apply sqrt_lt_R0). }
  assert (Hnum : is_finite ((r + 0.5 * (sigma * sigma)) * T)%js = false).
  { destruct Hinf as [-> | ->].
    - apply mul_PInf_not_finite.
    - apply mul_positive_not_finite; [| exact HT].
      apply add_not_finite. cbn. unfold signed_inf.
      now rewrite (R_ltb_true 0 0.5) by lra. }
  assert (Hd1 : ((Math_log (S / K) + (r + 0.5 * (sigma * sigma)) * T)
                 / (sigma * Math_sqrt T))%js = NaN).
  { rewrite Hden. apply div_PInf_not_finite. now apply add_not_finite. }
  unfold normal_record. cbv zeta. cbn [premium d1 d2 Nd1 Nd2].
  rewrite Hd1. cbn [jsub jadd]. rewrite normCDF_NaN, jmul_NaN_r. cbn [jsub jadd].
  repeat split.
Qed.

Lemma X19_witness :
  exists o : PricingResult,
    Default.blackScholesCall 2500 2400 PInf 0.05 0.2 = JObj o /\ premium o = NaN.
Proof.
  destruct (X19_infinite_T_or_sigma 2500 2400 PInf 0.05 0.2) as [o [Hd [_ [Hp _]]]].
  - reflexivity.
  - cbn. apply R_ltb_true. lra.
  - now left.
  - exists o. split; [exact Hd | exact Hp].
Defined.
